(** * Token-bounded chunking and sampling of Al-Nass-Extractor

    A shallow embedding of the text-segmentation core of the repository:
    - [estimate_tokens], [split_text_by_tokens] and
      [read_and_split_file]                          (ai_studio_code.py),
    - [_count_tokens], [_trim_to_token_limit] and
      [_build_representative_sample]                 (py/extract_novel_metadata.py),
    - [chunk_text], [extract_from_chunk], [process_novel] and
      [_merge_data]                                  (py/ingest_novel.py).

    Python strings are sequences of Unicode code points; they are modelled
    as lists of code points.  Python integers are unbounded and are modelled
    as [Z].  The two external token counters (tiktoken, Gemini CountTokens),
    the call to the model and [json.loads] are parameters that may fail;
    what [json.loads] returns is a JSON value of any shape, and the
    operations the code performs on it raise where Python's do. *)

From Stdlib Require Import ZArith NArith List Lia Ascii String.
From Stdlib Require Import Uint63 PrimFloat FloatOps SpecFloat.
From stdpp Require Import base list strings gmap.

Local Open Scope Z_scope.

(** ** Python strings *)

Module PyStr.

(** A character is a Unicode code point. *)
Definition char : Type := N.
Definition str : Type := list char.

Definition LF : char := 10%N.
Definition SP : char := 32%N.

(** [str.isspace] on one character: the code points Python treats as
    whitespace in [str.strip()] and [str.split()]. *)
Definition isspace (c : char) : bool :=
  ((9 <=? c) && (c <=? 13))%N || ((28 <=? c) && (c <=? 32))%N
  || (c =? 133)%N || (c =? 160)%N || (c =? 5760)%N
  || ((8192 <=? c) && (c <=? 8202))%N
  || (c =? 8232)%N || (c =? 8233)%N || (c =? 8239)%N
  || (c =? 8287)%N || (c =? 12288)%N.

(** [len(s)] *)
Definition len (s : str) : Z := Z.of_nat (length s).

Fixpoint lstrip (s : str) : str :=
  match s with
  | c :: s' => if isspace c then lstrip s' else s
  | [] => []
  end.

Definition rstrip (s : str) : str := rev (lstrip (rev s)).

(** [s.strip()] *)
Definition strip (s : str) : str := rstrip (lstrip s).

(** Truth value of a string or list: non-empty. *)
Definition truthy {A : Type} (l : list A) : bool :=
  match l with [] => false | _ :: _ => true end.

(** [s.split(sep)] for a one-character separator: always at least one
    field, empty fields are kept. *)
Fixpoint split_on (sep : char) (s : str) : list str :=
  match s with
  | [] => [[]]
  | c :: s' =>
      if (c =? sep)%N then [] :: split_on sep s'
      else match split_on sep s' with
           | f :: fs => (c :: f) :: fs
           | [] => [[c]]
           end
  end.

(** [s.split()]: maximal runs of non-whitespace characters.  [cur] holds
    the word being read, reversed. *)
Fixpoint split_ws_from (cur : str) (s : str) : list str :=
  match s with
  | [] => if truthy cur then [rev cur] else []
  | c :: s' =>
      if isspace c
      then (if truthy cur then rev cur :: split_ws_from [] s'
            else split_ws_from [] s')
      else split_ws_from (c :: cur) s'
  end.

Definition split_ws (s : str) : list str := split_ws_from [] s.

(** [sep.join(xs)] *)
Fixpoint join (sep : str) (xs : list str) : str :=
  match xs with
  | [] => []
  | [x] => x
  | x :: xs' => x ++ sep ++ join sep xs'
  end.

(** Slice bounds as Python adjusts them: a negative bound counts from the
    end, and every bound is clamped to [0, len]. *)
Definition adjust_index (n i : Z) : Z :=
  if i <? 0 then Z.max 0 (i + n) else Z.min i n.

(** [s[start:stop]] *)
Definition slice (s : str) (start stop : Z) : str :=
  let a := adjust_index (len s) start in
  let b := adjust_index (len s) stop in
  take (Z.to_nat (b - a)) (drop (Z.to_nat a) s).

(** [s[:stop]] and [s[start:]] *)
Definition slice_to (s : str) (stop : Z) : str := slice s 0 stop.
Definition slice_from (s : str) (start : Z) : str := slice s start (len s).

(** ASCII literals, for examples. *)
Definition lit (s : string) : str := map N_of_ascii (list_ascii_of_string s).

End PyStr.
Import PyStr.

(** ** ai_studio_code.py: the estimator with its fallback, and the splitter *)

Section Splitter.

(** [len(tiktoken.get_encoding("cl100k_base").encode(text))];
    [None] when tiktoken is unavailable or raises. *)
Variable tiktoken_count : str -> option nat.

Definition estimate_tokens (text : str) : Z :=
  match tiktoken_count text with
  | Some n => Z.of_nat n
  | None => len text / 3
  end.

(** The three variables each loop of [split_text_by_tokens] updates. *)
Record buffer := Buffer {
  chunks : list str;
  pending : list str;
  tokens : Z
}.

(** Body of [for word in words]; [pending] is [word_chunk] and [tokens]
    is [word_tokens]. *)
Definition word_step (max_tokens : Z) (st : buffer) (word : str) : buffer :=
  let word_token_count := estimate_tokens (word ++ [SP]) in
  if (tokens st + word_token_count >? max_tokens) && truthy (pending st)
  then Buffer (chunks st ++ [join [SP] (pending st)]) [word] word_token_count
  else Buffer (chunks st) (pending st ++ [word]) (tokens st + word_token_count).

(** Body of [for line in lines]; [pending] is [current_chunk] and
    [tokens] is [current_tokens]. *)
Definition line_step (max_tokens : Z) (st : buffer) (line : str) : buffer :=
  let line_tokens := estimate_tokens (line ++ [LF]) in
  if line_tokens >? max_tokens then
    let ws := fold_left (word_step max_tokens) (split_ws line)
                        (Buffer (chunks st) [] 0) in
    if truthy (pending ws) then
      if truthy (pending st)
      then Buffer ((chunks ws ++ [join [LF] (pending st)])
                     ++ [join [SP] (pending ws)]) [] 0
      else Buffer (chunks ws ++ [join [SP] (pending ws)])
                  (pending st) (tokens st)
    else Buffer (chunks ws) (pending st) (tokens st)
  else if (tokens st + line_tokens >? max_tokens) && truthy (pending st)
  then Buffer (chunks st ++ [join [LF] (pending st)]) [line] line_tokens
  else Buffer (chunks st) (pending st ++ [line]) (tokens st + line_tokens).

(** State of the line loop once every line has been read. *)
Definition lines_done (text : str) (max_tokens : Z) : buffer :=
  fold_left (line_step max_tokens) (split_on LF text) (Buffer [] [] 0).

Definition split_text_by_tokens (text : str) (max_tokens : Z) : list str :=
  let total_tokens := estimate_tokens text in
  if total_tokens <=? max_tokens then [text]
  else
    let st := lines_done text max_tokens in
    if truthy (pending st)
    then chunks st ++ [join [LF] (pending st)]
    else chunks st.

End Splitter.

(** ** Outcomes of code that may raise or loop *)

(** A call returns a value, lets an exception escape (of the token
    counter, or of an operation on a value of the wrong type), or is still
    running when the step budget [fuel] is used up. *)
Inductive outcome (A : Type) : Type :=
| Returns (a : A)
| Raises
| OutOfFuel.
Arguments Returns {A} a.
Arguments Raises {A}.
Arguments OutOfFuel {A}.

#[global] Instance outcome_ret : MRet outcome := fun A a => Returns a.
#[global] Instance outcome_bind : MBind outcome := fun A B k m =>
  match m with
  | Returns a => k a
  | Raises => Raises
  | OutOfFuel => OutOfFuel
  end.

(** ** py/extract_novel_metadata.py: counter, trimmer and sampler *)

Definition SEGMENT_MAX_TOKENS : Z := 8000.
Definition TARGET_TOTAL_SAMPLE_TOKENS : Z := 22000.
Definition TOKEN_TO_CHAR_RATIO : Z := 4.

Definition title_begin : str :=
  [91; 1605; 1602; 1578; 1591; 1601; 32; 1605; 1606; 32;
   1575; 1604; 1576; 1583; 1575; 1610; 1577; 93]%N.
Definition title_middle : str :=
  [91; 1605; 1602; 1578; 1591; 1601; 32; 1605; 1606; 32; 1605; 1606; 1578;
   1589; 1601; 32; 1575; 1604; 1585; 1608; 1575; 1610; 1577; 93]%N.
Definition title_end : str :=
  [91; 1605; 1602; 1578; 1591; 1601; 32; 1605; 1606; 32;
   1575; 1604; 1606; 1607; 1575; 1610; 1577; 93]%N.

(** Values stored in the [sample_meta] dictionary. *)
Inductive meta_value : Type :=
| MInt (n : Z)
| MList (labels : list str).

Section Sampler.

(** [int(client.models.count_tokens(...).total_tokens)]; [None] when the
    call raises (no client, network or service error). *)
Variable count_tokens_api : str -> option Z.

Definition _count_tokens (text : str) : outcome Z :=
  match count_tokens_api text with
  | Some n => Returns n
  | None => Raises
  end.

(** The [while lo <= hi] loop of [_trim_to_token_limit]; one unit of
    fuel per iteration. *)
Fixpoint search (fuel : nat) (text : str) (max_tokens lo hi : Z)
         (best : str) : outcome str :=
  if lo <=? hi then
    match fuel with
    | O => OutOfFuel
    | S fuel' =>
        let mid := (lo + hi) / 2 in
        let candidate := slice_to text mid in
        tok ← _count_tokens candidate;
        if tok <=? max_tokens
        then search fuel' text max_tokens (mid + 1) hi candidate
        else search fuel' text max_tokens lo (mid - 1) best
    end
  else Returns best.

Definition _trim_to_token_limit (fuel : nat) (text : str) (max_tokens : Z)
  : outcome str :=
  if negb (truthy (strip text)) then Returns []
  else
    tok ← _count_tokens text;
    if tok <=? max_tokens then Returns text
    else search fuel text max_tokens 1 (len text) [].

(** ["\n\n".join([f"{title}\n{txt}".strip()
                  for title, txt in segments if txt.strip()])] *)
Definition combine (segments : list (str * str)) : str :=
  join [LF; LF]
    (map (fun seg => strip (seg.1 ++ [LF] ++ seg.2))
         (List.filter (fun seg => truthy (strip seg.2)) segments)).

(** [[title for title, txt in segments if txt.strip()]] *)
Definition included (segments : list (str * str)) : list str :=
  map fst (List.filter (fun seg => truthy (strip seg.2)) segments).

(** What one pass yields: the labelled segments, the combined sample and
    its measured token count. *)
Record pass := Pass {
  segments : list (str * str);
  combined : str;
  total_tok : Z
}.

(** The block the source writes twice, once with [SEGMENT_MAX_TOKENS] and
    once with [new_limit]: trim the three raw windows to [limit], label
    them, build the combined sample and measure it. *)
Definition trim_and_measure (fuel : nat) (begins middle ends : str)
           (limit : Z) : outcome pass :=
  begin_txt ← _trim_to_token_limit fuel begins limit;
  mid_txt ← _trim_to_token_limit fuel middle limit;
  end_txt ← _trim_to_token_limit fuel ends limit;
  let segments := [(title_begin, begin_txt); (title_middle, mid_txt);
                   (title_end, end_txt)] in
  let combined := combine segments in
  total_tok ← _count_tokens combined;
  mret (Pass segments combined total_tok).

(** [max(2000, int(SEGMENT_MAX_TOKENS *
                   (TARGET_TOTAL_SAMPLE_TOKENS / max(total_tok, 1))))].
    The source evaluates the quotient and the product in double
    precision before truncating.  The definition below uses the exact
    truncated quotient; [new_limit_double] further down is the
    expression as the source evaluates it, and
    [new_limit_double_agrees] checks that the two coincide for every
    total from the budget up to the point where the product has dropped
    to 2000.  Beyond it the quotient is at most 0.25 and the product at
    most 2000 in either arithmetic, so the floor of 2000 is the result. *)
Definition new_limit (total_tok : Z) : Z :=
  Z.max 2000
    (SEGMENT_MAX_TOKENS * TARGET_TOTAL_SAMPLE_TOKENS / Z.max total_tok 1).

Definition raw_begins (full : str) : str :=
  let seg_chars := SEGMENT_MAX_TOKENS * TOKEN_TO_CHAR_RATIO in
  slice_to full (Z.min (len full) (seg_chars * 2)).

Definition raw_middle (full : str) : str :=
  let seg_chars := SEGMENT_MAX_TOKENS * TOKEN_TO_CHAR_RATIO in
  let n := len full in
  let middle_start := Z.max 0 (n / 2 - seg_chars) in
  let middle_end := Z.min n (n / 2 + seg_chars) in
  slice full middle_start middle_end.

Definition raw_ends (full : str) : str :=
  let seg_chars := SEGMENT_MAX_TOKENS * TOKEN_TO_CHAR_RATIO in
  slice_from full (Z.max 0 (len full - seg_chars * 2)).

Definition empty_meta : gmap string meta_value :=
  <["segments" := MList []]> (<["total_tokens" := MInt 0]> ∅).

Definition sample_meta (p : pass) : gmap string meta_value :=
  <["segment_max_tokens" := MInt SEGMENT_MAX_TOKENS]>
  (<["target_total_sample_tokens" := MInt TARGET_TOTAL_SAMPLE_TOKENS]>
  (<["actual_total_sample_tokens" := MInt (total_tok p)]>
  (<["segments_included" := MList (included (segments p))]> ∅))).

(** [fuel] is the step budget of each search loop the call runs. *)
Definition _build_representative_sample (fuel : nat) (self_text : str)
  : outcome (str * gmap string meta_value) :=
  let full := strip self_text in
  if negb (truthy full) then Returns ([], empty_meta)
  else
    let begins := raw_begins full in
    let middle := raw_middle full in
    let ends := raw_ends full in
    first ← trim_and_measure fuel begins middle ends SEGMENT_MAX_TOKENS;
    final ← (if total_tok first >? TARGET_TOTAL_SAMPLE_TOKENS
             then trim_and_measure fuel begins middle ends
                                   (new_limit (total_tok first))
             else mret first);
    mret (combined final, sample_meta final).

End Sampler.

(** ** py/ingest_novel.py: overlapping character chunks *)

(** The [while start < len(self.text)] loop of [chunk_text]; one unit of
    fuel per iteration. *)
Fixpoint chunk_loop (fuel : nat) (text : str) (chunk_size overlap : Z)
         (start : Z) (chunks : list str) : outcome (list str) :=
  if start <? len text then
    match fuel with
    | O => OutOfFuel
    | S fuel' =>
        let end_ := Z.min (start + chunk_size) (len text) in
        let chunks := chunks ++ [slice text start end_] in
        if end_ =? len text then Returns chunks
        else chunk_loop fuel' text chunk_size overlap
                        (start + (chunk_size - overlap)) chunks
    end
  else Returns chunks.

Definition chunk_text (fuel : nat) (self_text : str) (chunk_size overlap : Z)
  : outcome (list str) :=
  chunk_loop fuel self_text chunk_size overlap 0 [].

(** ** The limit of the correction pass in double precision *)

(** An integer below 2^63 as a double. *)
Definition float_of_int (n : Z) : float := PrimFloat.of_uint63 (Uint63.of_Z n).

(** [int(x)] for a finite double: truncation towards zero. *)
Definition int_of_float (x : float) : Z :=
  match Prim2SF x with
  | S754_finite s m e =>
      let v := if 0 <=? e then Z.pos m * 2 ^ e else Z.pos m / 2 ^ (- e) in
      if s then - v else v
  | _ => 0
  end.

Definition new_limit_double (total_tok : Z) : Z :=
  Z.max 2000
    (int_of_float
       (PrimFloat.mul (float_of_int SEGMENT_MAX_TOKENS)
          (PrimFloat.div (float_of_int TARGET_TOTAL_SAMPLE_TOKENS)
                         (float_of_int (Z.max total_tok 1))))).

(** [p] holds of the [n] consecutive integers from [start] on. *)
Fixpoint all_from (n : nat) (start : Z) (p : Z -> bool) : bool :=
  match n with
  | O => true
  | S n' => p start && all_from n' (start + 1) p
  end.

(** ** Counters and texts used in examples *)

(** tiktoken unavailable: every call fails. *)
Definition no_tiktoken : str -> option nat := fun _ => None.

(** tiktoken present, one token per character. *)
Definition length_counter : str -> option nat := fun s => Some (length s).

(** The length-based estimate that [estimate_tokens] falls back to. *)
Definition char_estimate : str -> option nat :=
  fun s => Some (Z.to_nat (len s / 3)).

(** A Gemini counter that always answers: one token per character. *)
Definition by_length : str -> option Z := fun s => Some (len s).

(** A Gemini counter that charges 1000 tokens per character. *)
Definition thousand_per_char : str -> option Z := fun s => Some (1000 * len s).

(** The Gemini counter unreachable: every call raises. *)
Definition no_counter : str -> option Z := fun _ => None.

Definition alphabet_text : str := lit "abcdefghijklmnopqrstuvwxyzabcdefghij".

(** Ordinary prose: a line of ten seven-letter words, 79 characters long,
    and a text of thirty such lines. *)
Definition prose_line : str := join [SP] (replicate 10 (lit "abcdefg")).
Definition prose_text : str := join [LF] (replicate 30 prose_line).

(** ** Vocabulary of the statements *)

(** Neither an emitted chunk nor a buffered piece is empty. *)
Definition filled (st : buffer) : Prop :=
  Forall (fun c => c <> []) (chunks st) /\ Forall (fun x => x <> []) (pending st).

(** [tok] is non-decreasing in prefix length, on the prefixes of [text]. *)
Definition monotone_on (tok : str -> Z) (text : str) : Prop :=
  forall i j : nat, (i <= j <= length text)%nat ->
    tok (take i text) <= tok (take j text).

(** [r] is the longest prefix of [text] whose count is at most
    [max_tokens]. *)
Definition longest_fitting_prefix (tok : str -> Z) (text : str)
           (max_tokens : Z) (r : str) : Prop :=
  r `prefix_of` text /\ tok r <= max_tokens
  /\ forall p, p `prefix_of` text -> tok p <= max_tokens ->
               (length p <= length r)%nat.

(** The three labelled segments, in the order the source lists them. *)
Definition labelled (begin_txt mid_txt end_txt : str) : list (str * str) :=
  [(title_begin, begin_txt); (title_middle, mid_txt); (title_end, end_txt)].

(** [begin_txt], [mid_txt] and [end_txt] are what the trimmer returns for
    the three raw windows of [full] under one common [limit]. *)
Definition trimmed_at (count_tokens_api : str -> option Z) (fuel : nat)
           (full : str) (limit : Z) (begin_txt mid_txt end_txt : str) : Prop :=
  _trim_to_token_limit count_tokens_api fuel (raw_begins full) limit
  = Returns begin_txt
  /\ _trim_to_token_limit count_tokens_api fuel (raw_middle full) limit
     = Returns mid_txt
  /\ _trim_to_token_limit count_tokens_api fuel (raw_ends full) limit
     = Returns end_txt.

(** What the sampler does after the first measurement: the three raw
    windows trimmed to 8000 tokens give a first combined sample; if the
    counter puts it over 22000 tokens, the same raw windows are trimmed
    once more, all to the one limit max(2000, 8000 * 22000 / total) with
    the quotient truncated, and the rebuilt sample is returned with its
    own measured total, whatever that total is; otherwise the first sample
    is returned with its measured total. *)
Definition corrects_once (count_tokens_api : str -> option Z) (tok : str -> Z)
           (fuel : nat) (text : str) : Prop :=
  exists b1 m1 e1,
    trimmed_at count_tokens_api fuel (strip text) 8000 b1 m1 e1
    /\ let first := combine (labelled b1 m1 e1) in
       if tok first >? 22000 then
         exists b2 m2 e2,
           trimmed_at count_tokens_api fuel (strip text)
                      (Z.max 2000 (8000 * 22000 / tok first)) b2 m2 e2
           /\ let second := combine (labelled b2 m2 e2) in
              exists meta,
                _build_representative_sample count_tokens_api fuel text
                = Returns (second, meta)
                /\ meta !! "actual_total_sample_tokens"
                   = Some (MInt (tok second))
       else
         exists meta,
           _build_representative_sample count_tokens_api fuel text
           = Returns (first, meta)
           /\ meta !! "actual_total_sample_tokens" = Some (MInt (tok first)).

(** The labels of the segments whose text is not blank, in the order
    begin, middle, end. *)
Definition nonblank_labels (begin_txt mid_txt end_txt : str) : list str :=
  (if truthy (strip begin_txt) then [title_begin] else [])
  ++ (if truthy (strip mid_txt) then [title_middle] else [])
  ++ (if truthy (strip end_txt) then [title_end] else []).

(** [begin_txt], [mid_txt] and [end_txt] are the segments of the pass the
    sampler returns: the three raw windows of the stripped text trimmed to
    8000 tokens when the sample they combine to is measured at no more than
    22000 tokens, and otherwise the same windows trimmed to
    max(2000, 8000 * 22000 / total), where total is what that first sample
    was measured at. *)
Definition final_segments (count_tokens_api : str -> option Z) (tok : str -> Z)
           (fuel : nat) (text : str) (begin_txt mid_txt end_txt : str) : Prop :=
  exists b1 m1 e1,
    trimmed_at count_tokens_api fuel (strip text) 8000 b1 m1 e1
    /\ let first := combine (labelled b1 m1 e1) in
       if tok first >? 22000
       then trimmed_at count_tokens_api fuel (strip text)
                       (Z.max 2000 (8000 * 22000 / tok first))
                       begin_txt mid_txt end_txt
       else begin_txt = b1 /\ mid_txt = m1 /\ end_txt = e1.

(** * Further code of the three files *)

(** ** py/ingest_novel.py: putting overlapping chunks back together *)

(** The chunks of [chunk_text] read back as one text: the first chunk,
    then every later chunk without its first [overlap] characters. *)
Definition stitch (overlap : Z) (cs : list str) : str :=
  match cs with
  | [] => []
  | c :: rest => c ++ concat (map (drop (Z.to_nat overlap)) rest)
  end.

(** ** ai_studio_code.py: reading a file and splitting it *)

(** [read_and_split_file]: [file] is what opening and reading the file
    yields, [None] when that raises; the exception is reported and an
    empty list returned. *)
Definition read_and_split_file (tiktoken_count : str -> option nat)
           (file : option str) (max_tokens : Z) : list str :=
  match file with
  | Some text => split_text_by_tokens tiktoken_count text max_tokens
  | None => []
  end.

(** A word as [str.split()] yields them: not empty, no whitespace. *)
Definition is_word (w : str) : Prop :=
  w <> [] /\ Forall (fun c => isspace c = false) w.

(** The words of a list of chunks or lines, in order. *)
Definition words_of (xs : list str) : list str := concat (map split_ws xs).

(** ** Cleaning the model's reply (py/ingest_novel.py [extract_from_chunk],
       py/extract_novel_metadata.py [extract_metadata]) *)

(** [s.startswith(p)] *)
Fixpoint startswith (s p : str) {struct p} : bool :=
  match p, s with
  | [], _ => true
  | c :: p', d :: s' => (c =? d)%N && startswith s' p'
  | _ :: _, [] => false
  end.

(** The Markdown fences the replies may be wrapped in. *)
Definition fence_json : str := [96; 96; 96; 106; 115; 111; 110]%N.
Definition fence : str := [96; 96; 96]%N.

(** The block both callers run on [response.text] before [json.loads]:
    strip, then cut a leading fence together with the last three
    characters. *)
Definition clean_response (response_text : str) : str :=
  let text_resp := strip response_text in
  if startswith text_resp fence_json then slice text_resp 7 (-3)
  else if startswith text_resp fence then slice text_resp 3 (-3)
  else text_resp.

(** ** py/ingest_novel.py: merging what the model extracted *)

(** What a Python [set] holds once parsed replies have been merged into it:
    [None], numbers and strings.  Python compares and hashes [bool], [int]
    and [float] by value ([True == 1 == 1.0]), so a number stands for its
    value: an integer, a float that is not an integer (sign, mantissa and
    exponent of the double), an infinity, or the one NaN object the json
    module hands out. *)
Inductive hashable : Type :=
| HNone
| HInt (n : Z)
| HFraction (negative : bool) (mantissa : positive) (exponent : Z)
| HInfinity (negative : bool)
| HNaN
| HStr (s : str).

#[global] Instance hashable_eq_dec : EqDecision hashable.
Proof. solve_decision. Defined.

#[global] Instance hashable_countable : Countable hashable.
Proof.
  refine (inj_countable'
    (fun h => match h with
              | HNone => inl (inl ())
              | HInt n => inl (inr n)
              | HFraction s m e => inr (inl (s, m, e))
              | HInfinity s => inr (inr (inl s))
              | HNaN => inr (inr (inr (inl ())))
              | HStr s => inr (inr (inr (inr s)))
              end)
    (fun x => match x with
              | inl (inl _) => HNone
              | inl (inr n) => HInt n
              | inr (inl (s, m, e)) => HFraction s m e
              | inr (inr (inl s)) => HInfinity s
              | inr (inr (inr (inl _))) => HNaN
              | inr (inr (inr (inr s))) => HStr s
              end) _).
  by intros [].
Defined.

(** One record of [self.characters]. *)
Record character_entry := CharacterEntry {
  character_id : str;
  novel_id : str;
  name : str;
  traits : gset hashable;
  roles : gset hashable;
  mentions : Z
}.

(** One element of [data["characters"]] as the loop over the characters
    reads it: the name when it is a string, the items [set.update] takes
    from ["traits"] and the value [set.add] takes from ["role"]; a key that
    is absent is [None]. *)
Record character_json := CharacterJson {
  json_name : option str;
  json_traits : option (list hashable);
  json_role : option hashable
}.

(** The block under [# Update existing]: add the traits and the role of
    [char], count one more mention. *)
Definition update_existing (c_entry : character_entry)
           (char : character_json) : character_entry :=
  let traits' := match json_traits char with
                 | Some ts => traits c_entry ∪ list_to_set ts
                 | None => traits c_entry
                 end in
  let roles' := match json_role char with
                | Some r => roles c_entry ∪ {[ r ]}
                | None => roles c_entry
                end in
  CharacterEntry (character_id c_entry) (novel_id c_entry) (name c_entry)
                 traits' roles' (mentions c_entry + 1).

(** Body of [for char in data.get("characters", [])]. *)
Definition merge_character (self_novel_id : str)
           (characters : gmap str character_entry) (char : character_json)
  : gmap str character_entry :=
  match json_name char with
  | None => characters
  | Some char_name =>
      if negb (truthy char_name) then characters
      else
        let char_id := strip char_name in
        let characters :=
          match characters !! char_id with
          | Some _ => characters
          | None =>
              <[char_id := CharacterEntry char_id self_novel_id char_name ∅ ∅ 1]>
                characters
          end in
        match characters !! char_id with
        | Some c_entry =>
            <[char_id := update_existing c_entry char]> characters
        | None => characters
        end
  end.

Section Ingest.

(** Values of a dialogue object, with the two kinds the code writes. *)
Variable json : Type.
Variable json_str : str -> json.
Variable json_int : Z -> json.

(** What the two loops of [_merge_data] read from [data]: the elements of
    ["characters"] and the objects of ["dialogues"], each [[]] when the key
    is absent. *)
Record chunk_data := ChunkData {
  data_characters : list character_json;
  data_dialogues : list (gmap str json)
}.

(** The state of a [NovelIngester] that [process_novel] changes. *)
Record ingester := Ingester {
  self_novel_id : str;
  characters : gmap str character_entry;
  dialogues : list (gmap str json)
}.

(** [dial["novel_id"] = self.novel_id; dial["chunk_index"] = chunk_index] *)
Definition tag_dialogue (self_id : str) (chunk_index : Z)
           (dial : gmap str json) : gmap str json :=
  <[lit "chunk_index" := json_int chunk_index]>
    (<[lit "novel_id" := json_str self_id]> dial).

Definition _merge_data (self : ingester) (data : chunk_data)
           (chunk_index : Z) : ingester :=
  Ingester (self_novel_id self)
    (fold_left (merge_character (self_novel_id self))
               (data_characters data) (characters self))
    (fold_left (fun ds dial =>
                  ds ++ [tag_dialogue (self_novel_id self) chunk_index dial])
               (data_dialogues data) (dialogues self)).

End Ingest.

(** ** py/ingest_novel.py: the values [json.loads] builds *)

(** A parsed JSON document: [None], a [bool], an [int], a [float], a
    [str], a [list], or a [dict] with string keys. *)
#[warnings="-register-all"] Inductive json_value : Type :=
| JNull
| JBool (b : bool)
| JInt (n : Z)
| JFloat (x : float)
| JStr (s : str)
| JList (xs : list json_value)
| JDict (d : gmap str json_value).

(** The truth value of a parsed value, as [if data:] and [if not name:]
    test it: [None], [False], zero (also [-0.0], but not NaN) and the empty
    string, list and dict are falsy. *)
Definition py_truthy (v : json_value) : bool :=
  match v with
  | JNull => false
  | JBool b => b
  | JInt n => negb (n =? 0)
  | JFloat x => negb (PrimFloat.eqb x PrimFloat.zero)
  | JStr s => truthy s
  | JList xs => truthy xs
  | JDict d => truthy (map_to_list d)
  end.

(** The set element a float stands for: its value when that is an integer,
    the double itself otherwise. *)
Definition hash_float (x : float) : hashable :=
  match Prim2SF x with
  | S754_zero _ => HInt 0
  | S754_infinity s => HInfinity s
  | S754_nan => HNaN
  | S754_finite s m e =>
      if 0 <=? e then HInt ((if s then -1 else 1) * (Z.pos m * 2 ^ e))
      else if Z.pos m mod 2 ^ (- e) =? 0
           then HInt ((if s then -1 else 1) * (Z.pos m / 2 ^ (- e)))
           else HFraction s m e
  end.

(** The element [set.add] and [set.update] store for a value: lists and
    dicts are unhashable (TypeError). *)
Definition py_hash (v : json_value) : outcome hashable :=
  match v with
  | JNull => Returns HNone
  | JBool b => Returns (HInt (if b then 1 else 0))
  | JInt n => Returns (HInt n)
  | JFloat x => Returns (hash_float x)
  | JStr s => Returns (HStr s)
  | JList _ | JDict _ => Raises
  end.

(** [for x in v]: the elements of a list, the keys of a dict, the
    characters of a string; [None], numbers and booleans are not iterable
    (TypeError).  The keys come in the order of the map, which is not
    Python's insertion order; no use below depends on their order. *)
Definition py_iter (v : json_value) : outcome (list json_value) :=
  match v with
  | JList xs => Returns xs
  | JDict d => Returns (map (fun kv => JStr kv.1) (map_to_list d))
  | JStr s => Returns (map (fun c => JStr [c]) s)
  | JNull | JBool _ | JInt _ | JFloat _ => Raises
  end.

(** What one round of [for char in data.get("characters", [])] reads from
    [char], and where it raises: [char.get] needs a dict (AttributeError);
    a falsy name skips the element before anything else is looked at;
    [name.strip()] needs a string (AttributeError); when the key is
    present, [set.update(char["traits"])] needs an iterable of hashable
    values and [set.add(char["role"])] a hashable value (TypeError). *)
Definition read_character (char : json_value) : outcome character_json :=
  match char with
  | JDict d =>
      let name := default JNull (d !! lit "name") in
      if negb (py_truthy name) then Returns (CharacterJson None None None)
      else
        match name with
        | JStr char_name =>
            char_traits ← match d !! lit "traits" with
                          | Some v => items ← py_iter v;
                                      hs ← mapM py_hash items;
                                      mret (Some hs)
                          | None => mret None
                          end;
            char_role ← match d !! lit "role" with
                        | Some v => h ← py_hash v; mret (Some h)
                        | None => mret None
                        end;
            mret (CharacterJson (Some char_name) char_traits char_role)
        | _ => Raises
        end
  | _ => Raises
  end.

(** One round of [for dial in data.get("dialogues", [])]: the item
    assignment [dial["novel_id"] = ...] needs a dict (TypeError). *)
Definition read_dialogue (dial : json_value) : outcome (gmap str json_value) :=
  match dial with
  | JDict d => Returns d
  | _ => Raises
  end.

(** What [_merge_data] reads from [data], and where it raises:
    [data.get] needs a dict (AttributeError), and both values it gets, or
    the default [[]], are iterated. *)
Definition read_data (data : json_value) : outcome (chunk_data json_value) :=
  match data with
  | JDict d =>
      chars ← py_iter (default (JList []) (d !! lit "characters"));
      cs ← mapM read_character chars;
      dials ← py_iter (default (JList []) (d !! lit "dialogues"));
      ds ← mapM read_dialogue dials;
      mret (ChunkData json_value cs ds)
  | _ => Raises
  end.

(** [self._merge_data(data, chunk_index)] on whatever [json.loads] built.
    An exception leaves [process_novel], which catches nothing, so what
    had been merged before it is of no account. *)
Definition merge_reply (self : ingester json_value) (data : json_value)
           (chunk_index : Z) : outcome (ingester json_value) :=
  d ← read_data data;
  mret (_merge_data json_value JStr JInt self d chunk_index).

Section Run.

(** [self.client.models.generate_content(...).text] for the prompt built
    from a chunk; [None] when the call or the access raises. *)
Variable generate_content : str -> option str.

(** [json.loads]; [None] when it raises. *)
Variable json_loads : str -> option json_value.

(** [extract_from_chunk]: raises without a client; every other failure is
    caught and gives [None]. *)
Definition extract_from_chunk (has_client : bool) (chunk : str)
  : outcome (option json_value) :=
  if negb has_client then Raises
  else Returns (match generate_content chunk with
                | Some response_text => json_loads (clean_response response_text)
                | None => None
                end).

(** The loop of [process_novel] over [enumerate(chunks)], from index
    [i] on.  [if data:] skips [None] and every falsy value; the merge of a
    truthy value runs outside any [try]. *)
Fixpoint process_chunks (has_client : bool) (chunks : list str) (i : Z)
         (self : ingester json_value) : outcome (ingester json_value) :=
  match chunks with
  | [] => Returns self
  | chunk :: rest =>
      data ← extract_from_chunk has_client chunk;
      self ← match data with
             | Some v => if py_truthy v then merge_reply self v i
                         else Returns self
             | None => Returns self
             end;
      process_chunks has_client rest (i + 1) self
  end.

(** [process_novel], with the default [chunk_text()]. *)
Definition process_novel (fuel : nat) (has_client : bool) (text : str)
           (self : ingester json_value) : outcome (ingester json_value) :=
  chunks ← chunk_text fuel text 15000 500;
  process_chunks has_client chunks 0 self.

End Run.

(** ** Vocabulary of the further statements *)

(** A trimmed segment: a prefix of its window, empty or within the
    limit. *)
Definition trimmed_segment (tok : str -> Z) (window : str) (limit : Z)
           (seg : str) : Prop :=
  seg `prefix_of` window /\ (seg = [] \/ tok seg <= limit).

(** How often [char_id] names an element of the reply: elements with a
    name that is not empty and strips to [char_id]. *)
Definition names (char_id : str) (char : character_json) : bool :=
  match json_name char with
  | Some char_name =>
      truthy char_name && bool_decide (strip char_name = char_id)
  | None => false
  end.

Definition occurrences (char_id : str) (cs : list character_json) : Z :=
  Z.of_nat (length (List.filter (names char_id) cs)).

(** The record created for a character seen for the first time. *)
Definition first_seen (self_id char_id : str) (char : character_json)
  : character_entry :=
  CharacterEntry char_id self_id (default [] (json_name char)) ∅ ∅ 1.

(** What the merge does to the record of one character, read off the
    elements of the reply in order. *)
Definition merged_entry (self_id char_id : str)
           (cur : option character_entry) (cs : list character_json)
  : option character_entry :=
  fold_left
    (fun cur char =>
       if names char_id char
       then Some (update_existing
                    (default (first_seen self_id char_id char) cur) char)
       else cur)
    cs cur.

(** Mentions a character starts from: its count so far, or the 1 a new
    record is created with. *)
Definition mentions_before (cur : option character_entry) : Z :=
  match cur with Some e => mentions e | None => 1 end.

(** Every record sits under its own id, which is its stripped name, belongs
    to the novel, and counts at least two mentions. *)
Definition well_keyed (self_id : str) (cs : gmap str character_entry) : Prop :=
  forall k e, cs !! k = Some e ->
    character_id e = k /\ novel_id e = self_id /\ strip (name e) = k
    /\ 2 <= mentions e.

(** [later] keeps everything [earlier] recorded about a character. *)
Definition grown (earlier later : character_entry) : Prop :=
  character_id later = character_id earlier
  /\ novel_id later = novel_id earlier
  /\ name later = name earlier
  /\ traits earlier ⊆ traits later
  /\ roles earlier ⊆ roles later
  /\ mentions earlier <= mentions later.

(** [stored] is the dialogue [dial] with its two tags set and every other
    key as the reply had it. *)
Definition retagged {json : Type} (json_str : str -> json)
           (json_int : Z -> json) (self_id : str) (chunk_index : Z)
           (dial stored : gmap str json) : Prop :=
  stored !! lit "chunk_index" = Some (json_int chunk_index)
  /\ stored !! lit "novel_id" = Some (json_str self_id)
  /\ forall key : str,
       key <> lit "chunk_index" -> key <> lit "novel_id" ->
       stored !! key = dial !! key.

(** A stored dialogue tagged with the novel and with the index of one of
    the first [n] chunks. *)
Definition tagged {json : Type} (json_str : str -> json)
           (json_int : Z -> json) (self_id : str) (n : Z)
           (stored : gmap str json) : Prop :=
  exists i, 0 <= i < n
            /\ stored !! lit "chunk_index" = Some (json_int i)
            /\ stored !! lit "novel_id" = Some (json_str self_id).

(** The reply to [chunk] parses to a truthy value on which [_merge_data]
    raises. *)
Definition ill_shaped_reply (generate_content : str -> option str)
           (json_loads : str -> option json_value) (chunk : str) : Prop :=
  exists r v, generate_content chunk = Some r
              /\ json_loads (clean_response r) = Some v
              /\ py_truthy v = true
              /\ read_data v = Raises.

(** The extraction from [chunk] gives nothing to merge: the call to the
    model fails, or its reply does not parse, or it parses to a falsy
    value. *)
Definition nothing_extracted (generate_content : str -> option str)
           (json_loads : str -> option json_value) (chunk : str) : Prop :=
  forall r v, generate_content chunk = Some r ->
              json_loads (clean_response r) = Some v ->
              py_truthy v = false.

(** ** Replies used in examples *)

(** Dialogue values as strings or integers. *)
Definition plain_json : Type := (str + Z)%type.

(** A model that answers every chunk with the chunk itself inside a json
    fence. *)
Definition echo_in_fence : str -> option str :=
  fun chunk => Some (fence_json ++ chunk ++ fence).

(** A model that fails on every chunk of the full default size and echoes
    the shorter ones. *)
Definition fails_on_full_chunks : str -> option str :=
  fun chunk => if len chunk =? 15000 then None else echo_in_fence chunk.

(** A JSON object given by its items. *)
Definition json_object (items : list (str * json_value)) : json_value :=
  JDict (list_to_map items).

(** A parser that reads every text as one character of that name, with one
    trait, and one dialogue without keys. *)
Definition one_character : str -> option json_value :=
  fun s => Some (json_object
                   [(lit "characters",
                     JList [json_object [(lit "name", JStr s);
                                         (lit "traits",
                                          JList [JStr (lit "brave")])]]);
                    (lit "dialogues", JList [json_object []])]).

(** A parser that reads every text as the object [{"characters": null}]. *)
Definition characters_null : str -> option json_value :=
  fun _ => Some (json_object [(lit "characters", JNull)]).

(** An ingester that has not seen anything yet. *)
Definition fresh_ingester {json : Type} (self_id : str) : ingester json :=
  Ingester json self_id ∅ [].

(** A text of 16000 characters, which [chunk_text] cuts into two chunks. *)
Definition two_chunk_text : str := replicate (Z.to_nat 16000) 97%N.


(** * Properties *)

(** ** Generic facts on loops and Python strings *)

Lemma fold_left_invariant {A B : Type} (f : A -> B -> A) (P : A -> Prop)
      (l : list B) (a : A) :
  P a -> (forall a b, b ∈ l -> P a -> P (f a b)) -> P (fold_left f l a).
Proof.
  revert a. induction l as [|b l IH]; intros a Ha Hstep; simpl; [done|].
  apply IH.
  - apply Hstep; [left | done].
  - intros a' b' Hb'. apply Hstep. by right.
Qed.

Lemma truthy_true {A : Type} (l : list A) : truthy l = true <-> l <> [].
Proof. destruct l; simpl; split; congruence. Qed.

Lemma truthy_false {A : Type} (l : list A) : truthy l = false <-> l = [].
Proof. destruct l; simpl; split; congruence. Qed.

Lemma join_cons (sep x : str) (xs : list str) :
  xs <> [] -> join sep (x :: xs) = x ++ sep ++ join sep xs.
Proof. destruct xs; [congruence | reflexivity]. Qed.

Lemma join_nonempty (sep : str) (xs : list str) :
  xs <> [] -> Forall (fun x => x <> []) xs -> join sep xs <> [].
Proof.
  intros Hne Hall. destruct xs as [|x xs]; [congruence|].
  inversion Hall as [|? ? Hx _]; subst.
  destruct xs as [|y ys]; [exact Hx|].
  rewrite join_cons by congruence.
  destruct x; [congruence | discriminate].
Qed.

Lemma split_ws_from_nonempty (cur s : str) :
  Forall (fun w => w <> []) (split_ws_from cur s).
Proof.
  assert (Hrev : forall d (cur : str), rev (d :: cur) <> []).
  { intros d cur' H. apply (f_equal length) in H.
    rewrite length_rev in H. discriminate H. }
  revert cur. induction s as [|c s IH]; intros cur; simpl.
  - destruct cur as [|d cur]; [constructor|].
    cbn [truthy]. constructor; [apply Hrev | constructor].
  - destruct (isspace c); [|apply IH].
    destruct cur as [|d cur]; [apply IH|].
    cbn [truthy]. constructor; [apply Hrev | apply IH].
Qed.

Lemma split_ws_nonempty (s w : str) : w ∈ split_ws s -> w <> [].
Proof.
  intros Hw. pose proof (split_ws_from_nonempty [] s) as H.
  rewrite Forall_forall in H. by apply H.
Qed.

Lemma slice_to_take (s : str) (k : Z) :
  0 <= k <= len s -> slice_to s k = take (Z.to_nat k) s.
Proof.
  intros Hk. unfold slice_to, slice, adjust_index. simpl.
  destruct (k <? 0) eqn:Hneg; [lia|].
  rewrite Z.min_l, Z.min_l by lia.
  by rewrite Z.sub_0_r.
Qed.

Lemma slice_length (s : str) (a b : Z) : (length (slice s a b) <= length s)%nat.
Proof. unfold slice. rewrite length_take, length_drop. lia. Qed.

Lemma lstrip_length (s : str) : (length (lstrip s) <= length s)%nat.
Proof.
  induction s as [|c s IH]; simpl; [lia|].
  destruct (isspace c); simpl; lia.
Qed.

Lemma strip_length (s : str) : (length (strip s) <= length s)%nat.
Proof.
  unfold strip, rstrip. rewrite length_rev.
  etransitivity; [apply lstrip_length|].
  rewrite length_rev. apply lstrip_length.
Qed.

Lemma prefix_is_take (p s : str) : p `prefix_of` s -> p = take (length p) s.
Proof. intros [k ->]. by rewrite take_app_length. Qed.

(** Membership in a list that has been computed: one case per element. *)
Ltac elem_cases H :=
  repeat (apply elem_of_cons in H as [H | H]; [try discriminate H|]);
  try (by apply elem_of_nil in H).

(** ** Scenarios of the splitter *)

Example split_fits :
  split_text_by_tokens no_tiktoken
    (lit "line1" ++ [LF] ++ lit "line2" ++ [LF] ++ lit "line3") 1000
  = [lit "line1" ++ [LF] ++ lit "line2" ++ [LF] ++ lit "line3"].
Proof. reflexivity. Qed.

Example split_long_line_by_words :
  split_text_by_tokens length_counter (lit "ab cd ef gh") 6
  = [lit "ab cd"; lit "ef gh"].
Proof. reflexivity. Qed.

(** ** The splitter adds up the estimates of the pieces *)

(** C1: the line loop adds up the estimates of the lines, each measured on
    its own with its newline, and never measures the chunk it joins.  With
    the fallback estimate len(text) // 3 every line of the prose text counts
    26 tokens, ten lines add up to the limit of 260 and are joined into one
    chunk, and that chunk, 799 characters long, is estimated at 266 tokens.
    No word of the text is over the limit (each counts 2), so the exception
    for a single oversized word does not apply. *)
Theorem split_joins_lines_over_limit :
  let chunk := join [LF] (replicate 10 prose_line) in
  split_text_by_tokens no_tiktoken prose_text 260 = [chunk; chunk; chunk]
  /\ estimate_tokens no_tiktoken chunk = 266
  /\ Forall (fun line => estimate_tokens no_tiktoken (line ++ [LF]) = 26)
            (split_on LF prose_text)
  /\ Forall (fun word => estimate_tokens no_tiktoken (word ++ [SP]) = 2)
            (split_ws prose_text).
Proof.
  split_and!; [by vm_compute | by vm_compute | |];
    refine (bool_decide_unpack _ _); by vm_compute.
Qed.

(** The same on the smallest scale: four one-letter lines are measured at
    zero tokens each, so the whole text comes back as one chunk of two
    tokens under a limit of one. *)
Example split_one_letter_lines :
  let text := lit "a" ++ [LF] ++ lit "b" ++ [LF] ++ lit "c" ++ [LF] ++ lit "d" in
  split_text_by_tokens no_tiktoken text 1 = [text]
  /\ estimate_tokens no_tiktoken text = 2.
Proof. by vm_compute. Qed.

(** C5: on a short line followed by a long line that splits into three
    word chunks, the word chunks emitted inside the word loop precede the
    pending line chunk, which is flushed only before the last word chunk;
    the words of the chunks are no longer in source order. *)
Theorem split_emits_word_chunks_before_pending_lines :
  let text := lit "aaa" ++ [LF] ++ lit "bbbbbb cccccc dddddd" in
  split_text_by_tokens no_tiktoken text 2
  = [lit "bbbbbb"; lit "cccccc"; lit "aaa"; lit "dddddd"]
  /\ concat (map split_ws (split_text_by_tokens no_tiktoken text 2))
     <> split_ws text.
Proof. split; [reflexivity | vm_compute; discriminate]. Qed.

(** C7 (as stated) fails for the splitter: the empty text is returned as a
    one-element list, not as an empty list. *)
Lemma split_empty_text_is_one_chunk :
  strip [] = [] /\ split_text_by_tokens no_tiktoken [] 30000 <> [].
Proof. split; [reflexivity | vm_compute; discriminate]. Qed.

(** ** The splitter emits no empty chunk from non-empty lines *)

Section NonEmptyChunks.

Variable tiktoken_count : str -> option nat.
Variables (text : str) (max_tokens : Z).

Lemma filled_flush (sep : str) (st : buffer) :
  filled st -> pending st <> [] ->
  Forall (fun c : str => c <> []) (chunks st ++ [join sep (pending st)]).
Proof.
  intros [Hch Hp] Hne. apply Forall_app. split; [done|].
  constructor; [|constructor]. by apply join_nonempty.
Qed.

Lemma word_step_filled st w :
  w <> [] -> filled st -> filled (word_step tiktoken_count max_tokens st w).
Proof.
  intros Hw Hst. pose proof Hst as [Hch Hp]. unfold word_step.
  destruct (_ && _) eqn:Hc; unfold filled; cbn [chunks pending].
  - apply andb_true_iff in Hc as [_ Hne%truthy_true].
    split; [by apply filled_flush | by repeat constructor].
  - split; [done|]. apply Forall_app. split; [done | by repeat constructor].
Qed.

Lemma line_step_filled st line :
  line <> [] -> filled st -> filled (line_step tiktoken_count max_tokens st line).
Proof.
  intros Hline Hst. pose proof Hst as [Hch Hp]. unfold line_step.
  destruct (_ >? _).
  - set (ws := fold_left _ _ _).
    assert (Hws : filled ws).
    { apply fold_left_invariant.
      - split; simpl; [done | constructor].
      - intros a b Hb. apply word_step_filled. by apply (split_ws_nonempty line). }
    destruct (truthy (pending ws)) eqn:Hpw.
    + apply truthy_true in Hpw. pose proof Hws as [Hwc Hwp].
      destruct (truthy (pending st)) eqn:Hps; unfold filled; cbn [chunks pending].
      * apply truthy_true in Hps. split; [|constructor].
        apply Forall_app. split.
        -- apply Forall_app. split; [done|].
           constructor; [|constructor]. by apply join_nonempty.
        -- constructor; [|constructor]. by apply join_nonempty.
      * split; [by apply filled_flush | done].
    + destruct Hws. by split.
  - destruct (_ && _) eqn:Hc; unfold filled; cbn [chunks pending].
    + apply andb_true_iff in Hc as [_ Hne%truthy_true].
      split; [by apply filled_flush | by repeat constructor].
    + split; [done|]. apply Forall_app. split; [done | by repeat constructor].
Qed.

Lemma lines_done_filled :
  (forall line, line ∈ split_on LF text -> line <> []) ->
  filled (lines_done tiktoken_count text max_tokens).
Proof.
  intros Hlines. unfold lines_done. apply fold_left_invariant.
  - split; constructor.
  - intros a b Hb. apply line_step_filled. by apply Hlines.
Qed.

End NonEmptyChunks.

(** When no line of the text is empty, no chunk is the empty string. *)
Lemma split_nonempty_lines_nonempty_chunks
      (tiktoken_count : str -> option nat) (text : str) (max_tokens : Z) :
  (forall line, line ∈ split_on LF text -> line <> []) ->
  forall c, c ∈ split_text_by_tokens tiktoken_count text max_tokens -> c <> [].
Proof.
  intros Hlines c Hc. unfold split_text_by_tokens in Hc.
  destruct (_ <=? _).
  - apply list_elem_of_singleton in Hc as ->.
    intros ->. apply (Hlines []); [left | done].
  - pose proof (lines_done_filled tiktoken_count text max_tokens Hlines)
      as Hfilled.
    pose proof Hfilled as [Hch _].
    destruct (truthy _) eqn:Hp.
    + apply truthy_true in Hp.
      pose proof (filled_flush [LF] _ Hfilled Hp) as Hall.
      rewrite Forall_forall in Hall. by apply Hall.
    + rewrite Forall_forall in Hch. by apply Hch.
Qed.

(** C8: the guards [if current_chunk:] test the list of buffered lines, not
    the text they join to, so a buffer that holds one empty line is flushed
    as an empty chunk.  A text made of one line over the limit and its
    final newline ends with the chunk [''], and a blank line between two
    lines over the limit gives an empty chunk in the middle of the list. *)
Theorem split_flushes_empty_line_as_chunk :
  split_text_by_tokens no_tiktoken (lit "aaaaa" ++ [LF]) 1 = [lit "aaaaa"; []]
  /\ split_text_by_tokens no_tiktoken
       (lit "aaaaa bbbbb" ++ [LF; LF] ++ lit "ccccc ddddd") 3
     = [lit "aaaaa"; lit "bbbbb"; lit "ccccc"; []; lit "ddddd"]
  /\ pending (lines_done no_tiktoken (lit "aaaaa" ++ [LF]) 1) = [[]].
Proof. by vm_compute. Qed.

(** ** The trimmer *)

Section TrimmerFacts.

Variable count_tokens_api : str -> option Z.
Local Abbreviation trim := (_trim_to_token_limit count_tokens_api).

(** The search stops: each iteration at least halves the interval
    [lo, hi], so a budget logarithmic in its width is enough. *)
Lemma search_terminates (fuel : nat) (text : str) (max_tokens lo hi : Z)
      (best : str) :
  hi - lo + 1 < 2 ^ Z.of_nat fuel ->
  search count_tokens_api fuel text max_tokens lo hi best <> OutOfFuel.
Proof.
  revert lo hi best. induction fuel as [|fuel IH]; intros lo hi best Hfuel;
    simpl search; destruct (lo <=? hi) eqn:Hle; try done.
  - simpl in Hfuel. lia.
  - unfold _count_tokens. destruct (count_tokens_api _); simpl; [|done].
    rewrite Nat2Z.inj_succ, Z.pow_succ_r in Hfuel by lia.
    destruct (_ <=? max_tokens); apply IH;
      Z.to_euclidean_division_equations; lia.
Qed.

Lemma trim_terminates (fuel : nat) (text : str) (max_tokens : Z) :
  len text < 2 ^ Z.of_nat fuel -> trim fuel text max_tokens <> OutOfFuel.
Proof.
  intros Hfuel. unfold _trim_to_token_limit.
  destruct (negb _); [done|].
  unfold _count_tokens. destruct (count_tokens_api text); simpl; [|done].
  destruct (_ <=? _); [done|].
  apply search_terminates. lia.
Qed.

(** The counter answers every call with [tok]. *)
Variable tok : str -> Z.
Hypothesis Hapi : forall s, count_tokens_api s = Some (tok s).

Lemma count_tokens_returns (s : str) :
  _count_tokens count_tokens_api s = Returns (tok s).
Proof. unfold _count_tokens. by rewrite Hapi. Qed.

(** Loop invariant of the search: [best] is the prefix of length [lo - 1],
    it fits unless it is the initial empty string, and (for a monotone
    counter) every prefix longer than [hi] is over the limit. *)
Lemma search_spec (fuel : nat) (text : str) (max_tokens lo hi : Z) (best : str) :
  1 <= lo <= hi + 1 -> hi <= len text ->
  hi - lo + 1 < 2 ^ Z.of_nat fuel ->
  best = take (Z.to_nat (lo - 1)) text ->
  (lo = 1 \/ tok best <= max_tokens) ->
  (monotone_on tok text ->
   forall j : nat, hi < Z.of_nat j <= len text -> max_tokens < tok (take j text)) ->
  exists k : nat,
    search count_tokens_api fuel text max_tokens lo hi best = Returns (take k text)
    /\ (k <= length text)%nat
    /\ (k = 0%nat \/ tok (take k text) <= max_tokens)
    /\ (monotone_on tok text ->
        forall j : nat, (k < j <= length text)%nat -> max_tokens < tok (take j text)).
Proof.
  revert lo hi best.
  induction fuel as [|fuel IH]; intros lo hi best Hlo Hhi Hfuel Hbest Hfit Hup;
    simpl search; destruct (lo <=? hi) eqn:Hle;
    try (simpl in Hfuel; lia).
  - exists (Z.to_nat (lo - 1)). rewrite <- Hbest. unfold len in *.
    split_and!; [done | lia | | ].
    + destruct Hfit as [-> | Hfit]; [by left | by right].
    + intros Hmono j Hj. apply Hup; [done | lia].
  - rewrite count_tokens_returns. simpl.
    rewrite Nat2Z.inj_succ, Z.pow_succ_r in Hfuel by lia.
    set (mid := (lo + hi) / 2).
    assert (Hmid : lo <= mid <= hi /\ 2 * (hi - mid) <= hi - lo + 1
                   /\ 2 * (mid - lo) <= hi - lo + 1).
    { unfold mid. Z.to_euclidean_division_equations. lia. }
    rewrite slice_to_take by lia.
    destruct (_ <=? max_tokens) eqn:Htok.
    + apply IH; try lia; [f_equal; lia | done].
    + apply IH; try lia; try done.
      intros Hmono j Hj.
      destruct (Z_le_gt_dec (Z.of_nat j) hi) as [Hjle | Hjgt];
        [|apply Hup; [done | lia]].
      assert (tok (take (Z.to_nat mid) text) <= tok (take j text)).
      { apply Hmono. unfold len in *. lia. }
      lia.
  - exists (Z.to_nat (lo - 1)). rewrite <- Hbest. unfold len in *.
    split_and!; [done | lia | | ].
    + destruct Hfit as [-> | Hfit]; [by left | by right].
    + intros Hmono j Hj. apply Hup; [done | lia].
Qed.

Lemma trim_spec (fuel : nat) (text : str) (max_tokens : Z) :
  len text < 2 ^ Z.of_nat fuel ->
  exists r,
    trim fuel text max_tokens = Returns r
    /\ r `prefix_of` text
    /\ (r = [] \/ tok r <= max_tokens)
    /\ (strip text <> [] -> monotone_on tok text ->
        forall p, p `prefix_of` text -> (length r < length p)%nat ->
                  max_tokens < tok p).
Proof.
  intros Hfuel. unfold _trim_to_token_limit.
  destruct (truthy (strip text)) eqn:Hblank; simpl.
  - rewrite count_tokens_returns. simpl.
    destruct (_ <=? _) eqn:Hfast.
    + exists text. split_and!; [done | done | right; lia |].
      intros _ _ p Hp%prefix_length Hlt. lia.
    + destruct (search_spec fuel text max_tokens 1 (len text) [])
        as (k & Hret & Hk & Hfit & Hlong);
        [unfold len; lia | lia | lia | done | by left
        | intros _ j Hj; lia |].
      exists (take k text). split_and!; [done | apply prefix_take | |].
      * destruct Hfit as [-> | Hfit]; [left; apply take_0 | by right].
      * intros _ Hmono p Hp Hlt. rewrite (prefix_is_take p text Hp).
        apply Hlong; [done|]. apply prefix_length in Hp.
        rewrite length_take in Hlt. lia.
  - exists []. split_and!; [done | apply prefix_nil | by left |].
    intros Hne. apply truthy_false in Hblank. done.
Qed.

End TrimmerFacts.

Lemma len_monotone_on (text : str) : monotone_on len text.
Proof. intros i j Hij. unfold len. rewrite !length_take. lia. Qed.

(** C2 (as amended): when the counter answers every call and the step
    budget is logarithmic in the length of the text, [_trim_to_token_limit]
    returns a prefix of the text that is empty or counts at most
    [max_tokens] tokens; and when the text is not blank and the counter is
    non-decreasing in prefix length, every longer prefix of the text is
    over the limit, so that the binary search over the indices
    1..len(text) has found the longest prefix that fits, provided the
    empty prefix fits. *)
Theorem trim_returns_longest_fitting_prefix
        (count_tokens_api : str -> option Z) (tok : str -> Z)
        (fuel : nat) (text : str) (max_tokens : Z) :
  (forall s, count_tokens_api s = Some (tok s)) ->
  len text < 2 ^ Z.of_nat fuel ->
  exists r,
    _trim_to_token_limit count_tokens_api fuel text max_tokens = Returns r
    /\ r `prefix_of` text
    /\ (r = [] \/ tok r <= max_tokens)
    /\ (strip text <> [] -> monotone_on tok text ->
        (forall p, p `prefix_of` text -> (length r < length p)%nat ->
                   max_tokens < tok p)
        /\ (tok [] <= max_tokens ->
            longest_fitting_prefix tok text max_tokens r)).
Proof.
  intros Hapi Hfuel.
  destruct (trim_spec count_tokens_api tok Hapi fuel text max_tokens Hfuel)
    as (r & Hret & Hpre & Hfit & Hlong).
  exists r. split_and!; [done | done | done |].
  intros Hne Hmono. specialize (Hlong Hne Hmono). split; [exact Hlong|].
  intros Hempty. split_and!; [done | by destruct Hfit as [-> | ?] |].
  intros p Hp Hpfit.
  destruct (le_lt_dec (length p) (length r)) as [Hle | Hlt]; [done|].
  specialize (Hlong p Hp Hlt). lia.
Qed.

Lemma trim_returns_longest_fitting_prefix_witness :
  let text := lit "abcdefghij" in
  exists r,
    _trim_to_token_limit by_length 4 text 4 = Returns r
    /\ r = lit "abcd"
    /\ longest_fitting_prefix len text 4 r.
Proof.
  intros text.
  destruct (trim_returns_longest_fitting_prefix by_length len 4 text 4)
    as (r & Hret & Hpre & Hfit & Hlong); [done | by vm_compute |].
  exists r. split_and!; [done | |].
  - vm_compute in Hret. injection Hret as <-. reflexivity.
  - apply Hlong; [by vm_compute | apply len_monotone_on | by vm_compute].
Defined.

(** C2 (as stated) fails: under a counter that is non-decreasing in prefix
    length, a text of one space is trimmed to the empty string although
    the text itself fits the limit, so the result is not the longest
    fitting prefix. *)
Lemma trim_blank_text_is_not_longest_prefix :
  0 <= 10 /\ monotone_on len [SP]
  /\ exists r, _trim_to_token_limit by_length 4 [SP] 10 = Returns r
               /\ ~ longest_fitting_prefix len [SP] 10 r.
Proof.
  split_and!; [lia | apply len_monotone_on |].
  exists []. split; [reflexivity|].
  intros (_ & _ & Hlong).
  specialize (Hlong [SP] ltac:(done) ltac:(by vm_compute)).
  simpl in Hlong. lia.
Qed.

(** C6 (as amended): a text that is empty, or that is not blank and whose
    count is at most [max_tokens], is returned unchanged, whatever the step
    budget; and every blank text, empty or not, is returned as the empty
    string, whatever the counter says of it. *)
Theorem trim_fitting_text_unchanged
        (count_tokens_api : str -> option Z) (fuel : nat)
        (text : str) (max_tokens : Z) :
  (text = []
   \/ (strip text <> []
       /\ exists t, count_tokens_api text = Some t /\ t <= max_tokens) ->
   _trim_to_token_limit count_tokens_api fuel text max_tokens = Returns text)
  /\ (strip text = [] ->
      _trim_to_token_limit count_tokens_api fuel text max_tokens = Returns []).
Proof.
  split.
  - intros [-> | (Hblank & t & Hcount & Hle)]; [reflexivity|].
    unfold _trim_to_token_limit.
    apply truthy_true in Hblank. rewrite Hblank. simpl.
    unfold _count_tokens. rewrite Hcount. simpl.
    by apply Z.leb_le in Hle as ->.
  - intros Hblank. unfold _trim_to_token_limit. by rewrite Hblank.
Qed.

Lemma trim_fitting_text_unchanged_witness :
  _trim_to_token_limit by_length 0 (lit " ab c ") 6 = Returns (lit " ab c ")
  /\ _trim_to_token_limit by_length 0 [] 6 = Returns []
  /\ _trim_to_token_limit by_length 0 [SP; LF; SP] 6 = Returns [].
Proof.
  split_and!.
  - apply (proj1 (trim_fitting_text_unchanged by_length 0 (lit " ab c ") 6)).
    right. split; [by vm_compute|].
    exists 6. split; [reflexivity | lia].
  - apply (proj1 (trim_fitting_text_unchanged by_length 0 [] 6)). by left.
  - apply (proj2 (trim_fitting_text_unchanged by_length 0 [SP; LF; SP] 6)).
    reflexivity.
Defined.

(** C6 (as stated) fails: a single space counts one token, within a limit
    of ten, yet the trimmer returns the empty string, not the text. *)
Lemma trim_blank_text_is_emptied :
  by_length [SP] = Some 1 /\ 1 <= 10
  /\ _trim_to_token_limit by_length 4 [SP] 10 = Returns []
  /\ _trim_to_token_limit by_length 4 [SP] 10 <> Returns [SP].
Proof. split_and!; [reflexivity | lia | reflexivity | vm_compute; congruence]. Qed.

(** ** [chunk_text] *)

(** With a positive stride the start index reaches the end of the text. *)
Lemma chunk_loop_returns (fuel : nat) (text : str) (chunk_size overlap : Z)
      (start : Z) (chunks : list str) :
  overlap < chunk_size -> 0 <= start ->
  len text - start <= Z.of_nat fuel ->
  exists r, chunk_loop fuel text chunk_size overlap start chunks = Returns r.
Proof.
  intros Hstride. revert start chunks.
  induction fuel as [|fuel IH]; intros start chunks Hstart Hfuel;
    simpl; destruct (start <? len text) eqn:Hlt; try lia; eauto.
  destruct (_ =? _); [eauto|]. apply IH; lia.
Qed.

(** With a stride that is not positive, a text longer than one chunk keeps
    the loop at or before its first position. *)
Lemma chunk_loop_stuck (fuel : nat) (text : str) (chunk_size overlap : Z)
      (start : Z) (chunks : list str) :
  chunk_size <= overlap -> chunk_size < len text -> 0 < len text -> start <= 0 ->
  chunk_loop fuel text chunk_size overlap start chunks = OutOfFuel.
Proof.
  intros Hstride Hsize Hlen. revert start chunks.
  induction fuel as [|fuel IH]; intros start chunks Hstart;
    simpl; destruct (start <? len text) eqn:Hlt; try lia; try done.
  destruct (_ =? _) eqn:Hend; [lia|]. apply IH. lia.
Qed.

(** C9 (as stated) fails: with [overlap = chunk_size] on a two-character
    text, [chunk_text] never returns, whatever the step budget. *)
Lemma chunk_text_equal_overlap_never_returns :
  ~ (exists fuel, chunk_text fuel (lit "ab") 1 1 <> OutOfFuel).
Proof.
  intros [fuel H]. apply H. unfold chunk_text.
  apply chunk_loop_stuck; by vm_compute.
Qed.

(** C9 (as amended): [chunk_text] returns for every text whenever
    [overlap < chunk_size], or the whole text fits in the first chunk;
    [split_text_by_tokens] is a total function of the text and the limit;
    and [_trim_to_token_limit] returns or raises within a step budget
    logarithmic in the length of the text, for every text, limit and
    behaviour of the counter. *)
Theorem chunking_calls_terminate :
  (forall (text : str) (chunk_size overlap : Z) (fuel : nat),
      overlap < chunk_size \/ len text <= chunk_size ->
      (length text <= fuel)%nat ->
      exists chunks, chunk_text fuel text chunk_size overlap = Returns chunks)
  /\ (forall tiktoken_count (text : str) (max_tokens : Z),
         exists chunks,
           split_text_by_tokens tiktoken_count text max_tokens = chunks)
  /\ (forall count_tokens_api (text : str) (max_tokens : Z) (fuel : nat),
         len text < 2 ^ Z.of_nat fuel ->
         _trim_to_token_limit count_tokens_api fuel text max_tokens
         <> OutOfFuel).
Proof.
  split_and!.
  - intros text chunk_size overlap fuel [Hstride | Hfits] Hfuel.
    + apply chunk_loop_returns; unfold len; lia.
    + unfold chunk_text. destruct fuel as [|fuel]; simpl.
      * destruct text; [eauto | simpl in Hfuel; lia].
      * destruct (0 <? len text); [|eauto].
        rewrite Z.min_r by lia. rewrite Z.eqb_refl. eauto.
  - intros. eauto.
  - intros. by apply trim_terminates.
Qed.

Lemma chunking_calls_terminate_witness :
  chunk_text 10 (lit "abcdefghij") 4 1
  = Returns [lit "abcd"; lit "defg"; lit "ghij"]
  /\ _trim_to_token_limit no_counter 4 (lit "abcdefghij") 4 <> OutOfFuel.
Proof.
  destruct chunking_calls_terminate as (Hchunk & _ & Htrim).
  split.
  - destruct (Hchunk (lit "abcdefghij") 4 1 10%nat) as [chunks Hret];
      [left; lia | simpl; lia |].
    rewrite Hret. vm_compute in Hret. injection Hret as <-. reflexivity.
  - apply Htrim. by vm_compute.
Defined.

(** ** The sampler *)

Section SamplerFacts.

Variable count_tokens_api : str -> option Z.

Lemma windows_fuel (fuel : nat) (text : str) :
  len text < 2 ^ Z.of_nat fuel ->
  len (raw_begins (strip text)) < 2 ^ Z.of_nat fuel
  /\ len (raw_middle (strip text)) < 2 ^ Z.of_nat fuel
  /\ len (raw_ends (strip text)) < 2 ^ Z.of_nat fuel.
Proof.
  intros Hfuel. pose proof (strip_length text) as Hs.
  unfold raw_begins, raw_middle, raw_ends, slice_to, slice_from.
  split_and!;
    match goal with
    | |- len (slice ?s ?a ?b) < _ =>
        pose proof (slice_length s a b); unfold len in *; lia
    end.
Qed.

Lemma sample_meta_total (p : pass) :
  sample_meta p !! "actual_total_sample_tokens" = Some (MInt (total_tok p)).
Proof. reflexivity. Qed.

Lemma sample_meta_included (p : pass) :
  sample_meta p !! "segments_included" = Some (MList (included (segments p))).
Proof. reflexivity. Qed.

Lemma included_labelled (b m e : str) :
  included (labelled b m e)
  = (if truthy (strip b) then [title_begin] else [])
      ++ (if truthy (strip m) then [title_middle] else [])
      ++ (if truthy (strip e) then [title_end] else []).
Proof.
  unfold included, labelled. simpl.
  destruct (truthy (strip b)), (truthy (strip m)), (truthy (strip e));
    reflexivity.
Qed.

(** A blank text never reaches the counter. *)
Lemma sample_of_blank_text (fuel : nat) (text : str) :
  strip text = [] ->
  _build_representative_sample count_tokens_api fuel text
  = Returns ([], empty_meta).
Proof.
  intros Hblank. unfold _build_representative_sample. by rewrite Hblank.
Qed.

Variable tok : str -> Z.
Hypothesis Hapi : forall s, count_tokens_api s = Some (tok s).

Lemma trim_and_measure_returns (fuel : nat) (text : str) (limit : Z) :
  len text < 2 ^ Z.of_nat fuel ->
  exists b m e,
    trimmed_at count_tokens_api fuel (strip text) limit b m e
    /\ trim_and_measure count_tokens_api fuel (raw_begins (strip text))
         (raw_middle (strip text)) (raw_ends (strip text)) limit
       = Returns (Pass (labelled b m e) (combine (labelled b m e))
                       (tok (combine (labelled b m e)))).
Proof.
  intros Hfuel. destruct (windows_fuel fuel text Hfuel) as (Hb & Hm & He).
  destruct (trim_spec count_tokens_api tok Hapi fuel _ limit Hb) as (b & Hrb & _).
  destruct (trim_spec count_tokens_api tok Hapi fuel _ limit Hm) as (m & Hrm & _).
  destruct (trim_spec count_tokens_api tok Hapi fuel _ limit He) as (e & Hre & _).
  exists b, m, e. split; [done|].
  unfold trim_and_measure. rewrite Hrb, Hrm, Hre. simpl.
  by rewrite (count_tokens_returns count_tokens_api tok Hapi).
Qed.

Lemma build_sample_spec (fuel : nat) (text : str) :
  strip text <> [] -> len text < 2 ^ Z.of_nat fuel ->
  exists b1 m1 e1,
    trimmed_at count_tokens_api fuel (strip text) SEGMENT_MAX_TOKENS b1 m1 e1
    /\ let first := Pass (labelled b1 m1 e1) (combine (labelled b1 m1 e1))
                         (tok (combine (labelled b1 m1 e1))) in
       if total_tok first >? TARGET_TOTAL_SAMPLE_TOKENS then
         exists b2 m2 e2,
           trimmed_at count_tokens_api fuel (strip text)
                      (new_limit (total_tok first)) b2 m2 e2
           /\ let second := Pass (labelled b2 m2 e2)
                                 (combine (labelled b2 m2 e2))
                                 (tok (combine (labelled b2 m2 e2))) in
              _build_representative_sample count_tokens_api fuel text
              = Returns (combined second, sample_meta second)
       else
         _build_representative_sample count_tokens_api fuel text
         = Returns (combined first, sample_meta first).
Proof.
  intros Hne%truthy_true Hfuel.
  destruct (trim_and_measure_returns fuel text SEGMENT_MAX_TOKENS Hfuel)
    as (b1 & m1 & e1 & Ht1 & Hp1).
  exists b1, m1, e1. split; [done|]. cbn zeta.
  unfold _build_representative_sample. rewrite Hne. cbn [negb].
  rewrite Hp1. cbn [mbind outcome_bind total_tok].
  destruct (_ >? _) eqn:Hover.
  - destruct (trim_and_measure_returns fuel text
                (new_limit (tok (combine (labelled b1 m1 e1)))) Hfuel)
      as (b2 & m2 & e2 & Ht2 & Hp2).
    exists b2, m2, e2. split; [done|]. by rewrite Hp2.
  - reflexivity.
Qed.

End SamplerFacts.

Lemma new_limit_over_budget (total : Z) :
  total > 22000 -> new_limit total = Z.max 2000 (8000 * 22000 / total).
Proof.
  intros Hover. unfold new_limit, SEGMENT_MAX_TOKENS, TARGET_TOTAL_SAMPLE_TOKENS.
  by rewrite (Z.max_l total 1) by lia.
Qed.

(** The double-precision evaluation of the new limit agrees with the exact
    truncated quotient, for every total from just above the budget of
    22000 up to 88000, where the scaled limit has dropped to the floor. *)
Lemma new_limit_double_agrees :
  all_from (Z.to_nat 66000) 22001 (fun total => new_limit_double total =? new_limit total)
  = true.
Proof. vm_compute. reflexivity. Qed.

(** C4 (as amended): for every text that is not empty once stripped of
    surrounding whitespace, the sampler measures the combined sample and,
    if it is over the budget, makes exactly one correction pass: every
    segment is trimmed again from its raw window with the single limit
    max(2000, 8000 * 22000 / total), the sample is rebuilt, measured once
    more and returned even if still over the budget. *)
Theorem sample_single_correction_pass
        (count_tokens_api : str -> option Z) (tok : str -> Z)
        (fuel : nat) (text : str) :
  (forall s, count_tokens_api s = Some (tok s)) ->
  strip text <> [] ->
  len text < 2 ^ Z.of_nat fuel ->
  corrects_once count_tokens_api tok fuel text.
Proof.
  intros Hapi Hne Hfuel.
  destruct (build_sample_spec count_tokens_api tok Hapi fuel text Hne Hfuel)
    as (b1 & m1 & e1 & Ht1 & Hrest).
  exists b1, m1, e1. split; [exact Ht1|].
  cbn zeta in *. cbn [total_tok combined] in Hrest.
  unfold TARGET_TOTAL_SAMPLE_TOKENS in Hrest.
  destruct (_ >? 22000) eqn:Hover.
  - destruct Hrest as (b2 & m2 & e2 & Ht2 & Hret).
    rewrite new_limit_over_budget in Ht2 by lia.
    exists b2, m2, e2. split; [exact Ht2|].
    eexists. split; [exact Hret | reflexivity].
  - eexists. split; [exact Hrest | reflexivity].
Qed.

(** C4 (as stated) fails: a text of one space is not empty, yet the
    sampler returns at once, without measuring anything: the metadata it
    returns holds no measured total. *)
Lemma sample_of_space_is_not_measured :
  [SP] <> [] /\ (forall s, by_length s = Some (len s))
  /\ len [SP] < 2 ^ Z.of_nat 1
  /\ ~ corrects_once by_length len 1 [SP].
Proof.
  split_and!; [done | done | done |].
  intros (b1 & m1 & e1 & _ & H). cbn zeta in H.
  assert (Hno : forall sample meta v,
             _build_representative_sample by_length 1 [SP]
             = Returns (sample, meta) ->
             meta !! "actual_total_sample_tokens" = Some v -> False).
  { intros sample meta v Hret Hmeta.
    rewrite sample_of_blank_text in Hret by reflexivity.
    injection Hret as _ <-. vm_compute in Hmeta. discriminate Hmeta. }
  destruct (_ >? _).
  - destruct H as (b2 & m2 & e2 & _ & meta & Hret & Hmeta). eauto.
  - destruct H as (meta & Hret & Hmeta). eauto.
Qed.

Lemma sample_single_correction_pass_witness :
  corrects_once thousand_per_char (fun s => 1000 * len s) 10 alphabet_text
  /\ (exists sample meta,
        _build_representative_sample thousand_per_char 10 alphabet_text
        = Returns (sample, meta)
        /\ 1000 * len sample = 73000 /\ 73000 > 22000).
Proof.
  split.
  - apply (sample_single_correction_pass thousand_per_char
             (fun s => 1000 * len s) 10 alphabet_text);
      [done | by vm_compute | by vm_compute].
  - eexists. eexists. split_and!; [vm_compute; reflexivity | by vm_compute | lia].
Defined.

(** C10: for a text that is not blank, the sampler returns the sample
    combined from the segments of its final pass (the windows trimmed to
    8000 tokens, or to the reduced limit when the first sample was over the
    budget), and the metadata returned with it records the counter's total
    for exactly that sample and lists exactly the labels of the segments
    whose trimmed text is not blank, in the order begin, middle, end. *)
Theorem sample_meta_matches_sample
        (count_tokens_api : str -> option Z) (tok : str -> Z)
        (fuel : nat) (text : str) :
  (forall s, count_tokens_api s = Some (tok s)) ->
  strip text <> [] ->
  len text < 2 ^ Z.of_nat fuel ->
  exists sample meta b m e,
    _build_representative_sample count_tokens_api fuel text
    = Returns (sample, meta)
    /\ final_segments count_tokens_api tok fuel text b m e
    /\ sample = combine (labelled b m e)
    /\ meta !! "actual_total_sample_tokens" = Some (MInt (tok sample))
    /\ meta !! "segments_included" = Some (MList (nonblank_labels b m e)).
Proof.
  intros Hapi Hne Hfuel.
  destruct (build_sample_spec count_tokens_api tok Hapi fuel text Hne Hfuel)
    as (b1 & m1 & e1 & Ht1 & Hrest).
  cbn zeta in Hrest. cbn [total_tok combined] in Hrest.
  unfold TARGET_TOTAL_SAMPLE_TOKENS in Hrest.
  destruct (_ >? 22000) eqn:Hover.
  - destruct Hrest as (b2 & m2 & e2 & Ht2 & Hret).
    rewrite new_limit_over_budget in Ht2 by lia.
    eexists _, _, b2, m2, e2.
    split_and!; [exact Hret | | reflexivity | reflexivity |].
    + exists b1, m1, e1. split; [exact Ht1|]. cbn zeta. by rewrite Hover.
    + rewrite sample_meta_included. cbn [segments].
      by rewrite included_labelled.
  - eexists _, _, b1, m1, e1.
    split_and!; [exact Hrest | | reflexivity | reflexivity |].
    + exists b1, m1, e1. split; [exact Ht1|]. cbn zeta. by rewrite Hover.
    + rewrite sample_meta_included. cbn [segments].
      by rewrite included_labelled.
Qed.

Lemma sample_meta_matches_sample_witness :
  exists sample meta b m e,
    _build_representative_sample by_length 3 (lit " abc ")
    = Returns (sample, meta)
    /\ final_segments by_length len 3 (lit " abc ") b m e
    /\ sample = combine (labelled b m e)
    /\ meta !! "actual_total_sample_tokens" = Some (MInt (len sample))
    /\ meta !! "segments_included" = Some (MList (nonblank_labels b m e)).
Proof.
  apply (sample_meta_matches_sample by_length len 3 (lit " abc "));
    [done | by vm_compute | by vm_compute].
Defined.

(** The segments of that sample are the whole stripped text three times,
    so all three labels are listed. *)
Example sample_meta_lists_all_labels :
  final_segments by_length len 3 (lit " abc ") (lit "abc") (lit "abc") (lit "abc")
  /\ nonblank_labels (lit "abc") (lit "abc") (lit "abc")
     = [title_begin; title_middle; title_end].
Proof.
  split; [|reflexivity].
  exists (lit "abc"), (lit "abc"), (lit "abc"). by vm_compute.
Qed.

(** C7 (as amended): for an empty or blank text, the splitter returns the
    text itself as its only chunk whenever the estimate of the text is
    within the limit, and the sampler returns the empty sample with
    metadata holding no segment and zero tokens, without consulting the
    counter; neither raises. *)
Theorem blank_text_results
        (tiktoken_count : str -> option nat)
        (count_tokens_api : str -> option Z)
        (fuel : nat) (text : str) (max_tokens : Z) :
  strip text = [] ->
  (estimate_tokens tiktoken_count text <= max_tokens ->
   split_text_by_tokens tiktoken_count text max_tokens = [text])
  /\ (exists meta,
        _build_representative_sample count_tokens_api fuel text
        = Returns ([], meta)
        /\ meta !! "segments" = Some (MList [])
        /\ meta !! "total_tokens" = Some (MInt 0)).
Proof.
  intros Hblank. split.
  - intros Hle. unfold split_text_by_tokens.
    by apply Z.leb_le in Hle as ->.
  - exists empty_meta. split_and!; [|reflexivity|reflexivity].
    by apply sample_of_blank_text.
Qed.

Lemma blank_text_results_witness :
  split_text_by_tokens no_tiktoken [SP; LF; SP] 30000 = [[SP; LF; SP]]
  /\ (exists meta,
        _build_representative_sample no_counter 0 [SP; LF; SP]
        = Returns ([], meta)
        /\ meta !! "segments" = Some (MList [])
        /\ meta !! "total_tokens" = Some (MInt 0)).
Proof.
  destruct (blank_text_results no_tiktoken no_counter 0 [SP; LF; SP] 30000)
    as [Hsplit Hsample]; [reflexivity|].
  split; [apply Hsplit; by vm_compute | exact Hsample].
Defined.

(** ** Failure of the counters *)

(** The splitter sees its counter only through [estimate_tokens]. *)
Lemma split_text_by_tokens_ext (tk1 tk2 : str -> option nat) :
  (forall s, estimate_tokens tk1 s = estimate_tokens tk2 s) ->
  forall text max_tokens,
    split_text_by_tokens tk1 text max_tokens
    = split_text_by_tokens tk2 text max_tokens.
Proof.
  intros Hest text max_tokens.
  assert (Hword : forall ws st,
             fold_left (word_step tk1 max_tokens) ws st
             = fold_left (word_step tk2 max_tokens) ws st).
  { induction ws as [|w ws IH]; intros st; simpl; [done|].
    rewrite IH. f_equal. unfold word_step. by rewrite Hest. }
  assert (Hline : forall ls st,
             fold_left (line_step tk1 max_tokens) ls st
             = fold_left (line_step tk2 max_tokens) ls st).
  { induction ls as [|l ls IH]; intros st; simpl; [done|].
    rewrite IH. f_equal. unfold line_step. by rewrite Hest, Hword. }
  unfold split_text_by_tokens, lines_done. by rewrite Hest, Hline.
Qed.

Lemma trim_without_counter (fuel : nat) (text : str) (max_tokens : Z) :
  _trim_to_token_limit no_counter fuel text max_tokens
  = if truthy (strip text) then Raises else Returns [].
Proof. unfold _trim_to_token_limit. by destruct (truthy _). Qed.

(** C3 (as amended): when tiktoken fails, [estimate_tokens] substitutes
    len(text) // 3 and [split_text_by_tokens] completes with the chunks
    that estimate gives; [_count_tokens] has no fallback, so a failure of
    the Gemini counter on a text that is not blank escapes from
    [_trim_to_token_limit], and an unreachable counter makes
    [_build_representative_sample] raise on every text that is not blank. *)
Theorem counter_failure_handling :
  (forall tiktoken_count (text : str),
      tiktoken_count text = None ->
      estimate_tokens tiktoken_count text = len text / 3)
  /\ (forall (text : str) (max_tokens : Z),
         split_text_by_tokens no_tiktoken text max_tokens
         = split_text_by_tokens char_estimate text max_tokens)
  /\ (forall count_tokens_api (fuel : nat) (text : str) (max_tokens : Z),
         count_tokens_api text = None -> strip text <> [] ->
         _trim_to_token_limit count_tokens_api fuel text max_tokens = Raises)
  /\ (forall (fuel : nat) (text : str),
         strip text <> [] ->
         _build_representative_sample no_counter fuel text = Raises).
Proof.
  split_and!.
  - intros tk text Hfail. unfold estimate_tokens. by rewrite Hfail.
  - apply split_text_by_tokens_ext. intros s.
    unfold estimate_tokens, no_tiktoken, char_estimate.
    rewrite Z2Nat.id; [done|]. apply Z.div_pos; unfold len; lia.
  - intros api fuel text max_tokens Hfail Hne%truthy_true.
    unfold _trim_to_token_limit, _count_tokens. by rewrite Hne, Hfail.
  - intros fuel text Hne%truthy_true.
    unfold _build_representative_sample, trim_and_measure.
    rewrite Hne. cbn [negb].
    rewrite !trim_without_counter.
    by destruct (truthy (strip (raw_begins _))),
                (truthy (strip (raw_middle _))),
                (truthy (strip (raw_ends _))).
Qed.

Lemma counter_failure_handling_witness :
  estimate_tokens no_tiktoken (lit "abcdefg") = 2
  /\ _trim_to_token_limit no_counter 4 (lit "abc") 10 = Raises
  /\ _build_representative_sample no_counter 4 (lit "abc") = Raises.
Proof.
  destruct counter_failure_handling as (Hest & _ & Htrim & Hbuild).
  split_and!.
  - rewrite Hest; reflexivity.
  - apply Htrim; [reflexivity | by vm_compute].
  - apply Hbuild. by vm_compute.
Defined.

(** C3 (as stated) fails for the sampler: with the Gemini counter
    unreachable, sampling a one-letter text raises instead of completing
    with a fallback estimate. *)
Lemma sample_raises_without_counter :
  ~ (exists result,
        _build_representative_sample no_counter 4 (lit "a")
        = Returns result).
Proof. intros [result H]. vm_compute in H. discriminate H. Qed.

(** * Further properties *)

(** ** [chunk_text]: coverage and chunk sizes *)

Lemma slice_take_drop (s : str) (a b : Z) :
  0 <= a -> 0 <= b -> a <= len s -> b <= len s ->
  slice s a b = take (Z.to_nat (b - a)) (drop (Z.to_nat a) s).
Proof.
  intros Ha Hb Hal Hbl. unfold slice, adjust_index.
  destruct (a <? 0) eqn:Han; [lia|]. destruct (b <? 0) eqn:Hbn; [lia|].
  by rewrite !Z.min_l by lia.
Qed.

Lemma stitch_snoc (overlap : Z) (cs : list str) (c : str) :
  cs <> [] ->
  stitch overlap (cs ++ [c]) = stitch overlap cs ++ drop (Z.to_nat overlap) c.
Proof.
  destruct cs as [|c0 rest]; [done|]. intros _. simpl.
  rewrite map_app, concat_app. simpl. by rewrite app_nil_r, app_assoc.
Qed.

(** Invariant of the loop once a chunk has been cut: the chunks stitched
    together are the text up to where the last chunk ended. *)
Lemma chunk_loop_stitch (fuel : nat) (text : str) (chunk_size overlap : Z)
      (start : Z) (chunks : list str) :
  0 <= overlap < chunk_size -> 0 < start -> chunks <> [] ->
  start + overlap < len text ->
  stitch overlap chunks = take (Z.to_nat (start + overlap)) text ->
  len text - start <= Z.of_nat fuel ->
  exists r, chunk_loop fuel text chunk_size overlap start chunks = Returns r
            /\ stitch overlap r = text.
Proof.
  intros Hov. revert start chunks.
  induction fuel as [|fuel IH]; intros start chunks Hstart Hne Hlt Hst Hfuel;
    simpl; destruct (start <? len text) eqn:Hin; try lia.
  set (end_ := Z.min (start + chunk_size) (len text)).
  assert (Hend : start + overlap < end_ <= len text) by (unfold end_; lia).
  assert (Hcov : stitch overlap (chunks ++ [slice text start end_])
                 = take (Z.to_nat end_) text).
  { rewrite stitch_snoc by done. rewrite Hst.
    rewrite slice_take_drop by lia.
    rewrite take_drop_commute, drop_drop.
    replace (Z.to_nat start + Z.to_nat (end_ - start))%nat
      with (Z.to_nat end_) by lia.
    replace (Z.to_nat start + Z.to_nat overlap)%nat
      with (Z.to_nat (start + overlap)) by lia.
    replace (take (Z.to_nat (start + overlap)) text)
      with (take (Z.to_nat (start + overlap)) (take (Z.to_nat end_) text))
      by (rewrite take_take; f_equal; lia).
    apply take_drop. }
  destruct (end_ =? len text) eqn:Hlast.
  - eexists. split; [done|]. rewrite Hcov.
    apply take_ge. unfold len in *. lia.
  - apply IH; try lia; try done.
    + intros H. by apply app_eq_nil in H as [_ ?].
    + rewrite Hcov. f_equal. lia.
Qed.

(** X1: with [0 <= overlap < chunk_size] the chunks cover the text with
    nothing lost: [chunk_text] returns, and its chunks stitched together,
    each later chunk without its first [overlap] characters, are the
    text. *)
Theorem chunk_text_stitches_back (fuel : nat) (text : str)
        (chunk_size overlap : Z) :
  0 <= overlap < chunk_size ->
  (length text <= fuel)%nat ->
  exists chunks,
    chunk_text fuel text chunk_size overlap = Returns chunks
    /\ stitch overlap chunks = text.
Proof.
  intros Hov Hfuel. unfold chunk_text.
  destruct fuel as [|fuel]; simpl.
  - destruct text; [|simpl in Hfuel; lia]. by exists [].
  - destruct (0 <? len text) eqn:Hne.
    + set (end_ := Z.min (0 + chunk_size) (len text)).
      assert (Hfirst : slice text 0 end_ = take (Z.to_nat end_) text).
      { rewrite slice_take_drop by (unfold end_, len; lia).
        by rewrite Z.sub_0_r. }
      destruct (end_ =? len text) eqn:Hlast.
      * eexists. split; [done|]. simpl. rewrite app_nil_r, Hfirst.
        apply take_ge. unfold len in *. lia.
      * apply chunk_loop_stitch; try done; try (unfold end_ in *; lia).
        -- simpl. rewrite app_nil_r, Hfirst. f_equal. unfold end_ in *. lia.
        -- unfold len in *. lia.
    + exists []. split; [done|]. destruct text; [done|].
      apply Z.ltb_ge in Hne. unfold len in Hne. cbn [length] in Hne. lia.
Qed.

Lemma chunk_text_stitches_back_witness :
  exists chunks,
    chunk_text 10 (lit "abcdefghij") 4 1 = Returns chunks
    /\ stitch 1 chunks = lit "abcdefghij".
Proof.
  apply (chunk_text_stitches_back 10 (lit "abcdefghij") 4 1);
    [lia | simpl; lia].
Defined.

Lemma chunk_loop_past_end (fuel : nat) (text : str) (chunk_size overlap : Z)
      (start : Z) (chunks : list str) :
  len text <= start ->
  chunk_loop fuel text chunk_size overlap start chunks = Returns chunks.
Proof.
  intros Hpast. destruct fuel; simpl;
    destruct (start <? len text) eqn:Hin; try done; lia.
Qed.

(** Sizes of the chunks cut so far and of those still to come. *)
Lemma chunk_loop_sizes (fuel : nat) (text : str) (chunk_size overlap : Z)
      (start : Z) (chunks : list str) :
  overlap < chunk_size -> 0 < chunk_size -> 0 <= start < len text ->
  Forall (fun c => len c = chunk_size) chunks ->
  len text - start <= Z.of_nat fuel ->
  exists full last_chunk,
    chunk_loop fuel text chunk_size overlap start chunks
    = Returns (full ++ [last_chunk])
    /\ Forall (fun c => len c = chunk_size) full
    /\ 0 < len last_chunk <= chunk_size.
Proof.
  intros Hov Hcs. revert start chunks.
  induction fuel as [|fuel IH]; intros start chunks Hstart Hall Hfuel;
    simpl; destruct (start <? len text) eqn:Hin; try lia.
  set (end_ := Z.min (start + chunk_size) (len text)).
  assert (Hlen : len (slice text start end_) = end_ - start).
  { rewrite slice_take_drop by (unfold end_; lia).
    unfold len in *. rewrite length_take, length_drop. unfold end_. lia. }
  destruct (end_ =? len text) eqn:Hlast.
  - exists chunks, (slice text start end_).
    split_and!; try done; unfold end_ in *; lia.
  - destruct (Z_lt_le_dec (start + (chunk_size - overlap)) (len text))
      as [Hmore | Hdone].
    + apply IH; try lia.
      apply Forall_app. split; [done|].
      constructor; [unfold end_ in *; lia | constructor].
    + exists chunks, (slice text start end_).
      rewrite chunk_loop_past_end by done.
      split_and!; try done; unfold end_ in *; lia.
Qed.

(** X2: for a positive [chunk_size] larger than [overlap] and a text that
    is not empty, [chunk_text] returns at least one chunk; every chunk but
    the last has exactly [chunk_size] characters, and the last has between
    one and [chunk_size]. *)
Theorem chunk_text_chunk_sizes (fuel : nat) (text : str)
        (chunk_size overlap : Z) :
  overlap < chunk_size -> 0 < chunk_size -> text <> [] ->
  (length text <= fuel)%nat ->
  exists full last_chunk,
    chunk_text fuel text chunk_size overlap = Returns (full ++ [last_chunk])
    /\ Forall (fun c => len c = chunk_size) full
    /\ 0 < len last_chunk <= chunk_size.
Proof.
  intros Hov Hcs Hne Hfuel. unfold chunk_text.
  apply chunk_loop_sizes; try done; unfold len; try lia.
  destruct text; [done | simpl; lia].
Qed.

Lemma chunk_text_chunk_sizes_witness :
  exists full last_chunk,
    chunk_text 10 (lit "abcdefghij") 4 (-1) = Returns (full ++ [last_chunk])
    /\ Forall (fun c => len c = 4) full
    /\ 0 < len last_chunk <= 4.
Proof.
  apply (chunk_text_chunk_sizes 10 (lit "abcdefghij") 4 (-1));
    [lia | lia | done | simpl; lia].
Defined.

(** ** Splitting and joining Python strings *)

Lemma split_on_nonempty (sep : char) (s : str) : split_on sep s <> [].
Proof.
  induction s as [|c s IH]; simpl; [done|].
  destruct (c =? sep)%N; [done|]. by destruct (split_on sep s).
Qed.

(** [sep.join(s.split(sep)) == s] *)
Lemma join_split_on (sep : char) (s : str) : join [sep] (split_on sep s) = s.
Proof.
  induction s as [|c s IH]; simpl; [done|].
  pose proof (split_on_nonempty sep s) as Hne.
  destruct (c =? sep)%N eqn:Hc.
  - apply N.eqb_eq in Hc as ->.
    rewrite join_cons by done. simpl. by rewrite IH.
  - destruct (split_on sep s) as [|f fs]; [done|].
    destruct fs as [|g gs]; simpl in *; by rewrite <- IH.
Qed.

Lemma join_app (sep : str) (xs ys : list str) :
  xs <> [] -> ys <> [] ->
  join sep (xs ++ ys) = join sep xs ++ sep ++ join sep ys.
Proof.
  intros Hx Hy. induction xs as [|x xs IH]; [done|].
  destruct xs as [|x' xs'].
  - simpl app. by rewrite join_cons.
  - rewrite <- app_comm_cons, join_cons by done.
    rewrite IH by done. rewrite (join_cons sep x) by done.
    by rewrite <- !app_assoc.
Qed.

(** Joining joined groups is joining their concatenation. *)
Lemma join_groups (sep : str) (groups : list (list str)) :
  Forall (fun g => g <> []) groups ->
  join sep (map (join sep) groups) = join sep (concat groups).
Proof.
  induction 1 as [|g groups Hg Hall IH]; [done|].
  destruct groups as [|g' groups'].
  - simpl. by rewrite app_nil_r.
  - cbn [map concat]. rewrite join_cons by done.
    cbn [map] in IH. rewrite IH.
    rewrite (join_app sep g); [done | done |].
    inversion Hall as [|? ? Hg' _]; subst. simpl.
    destruct g'; [done | discriminate].
Qed.

Lemma split_ws_from_app_space (cur a b : str) (sep : char) :
  isspace sep = true ->
  split_ws_from cur (a ++ sep :: b) = split_ws_from cur a ++ split_ws b.
Proof.
  intros Hsep. revert cur. induction a as [|c a IH]; intros cur; simpl.
  - rewrite Hsep. by destruct (truthy cur).
  - destruct (isspace c); [|apply IH].
    destruct (truthy cur); simpl; by rewrite IH.
Qed.

Lemma split_ws_from_word (cur w : str) :
  Forall (fun c => isspace c = false) w -> cur <> [] \/ w <> [] ->
  split_ws_from cur w = [rev cur ++ w].
Proof.
  intros Hw. revert cur. induction Hw as [|c w Hc Hw IH]; intros cur Hne; simpl.
  - destruct Hne as [Hne | Hne]; [|done].
    apply truthy_true in Hne as ->. by rewrite app_nil_r.
  - rewrite Hc. rewrite IH by (left; done).
    simpl. by rewrite <- app_assoc.
Qed.

Lemma split_ws_word (w : str) : is_word w -> split_ws w = [w].
Proof. intros [Hne Hw]. unfold split_ws. rewrite split_ws_from_word; auto. Qed.

Lemma split_ws_from_words (cur s : str) :
  Forall (fun c => isspace c = false) cur ->
  Forall is_word (split_ws_from cur s).
Proof.
  assert (Hrev : forall d (cur : str),
             Forall (fun c => isspace c = false) (d :: cur) ->
             is_word (rev (d :: cur))).
  { intros d cur' Hall. split.
    - intros H. apply (f_equal length) in H.
      rewrite length_rev in H. discriminate H.
    - rewrite Forall_forall in *. intros c Hc. apply Hall.
      apply list_elem_of_In. apply in_rev. by apply list_elem_of_In. }
  revert cur. induction s as [|c s IH]; intros cur Hcur; simpl.
  - destruct cur as [|d cur]; [constructor|].
    cbn [truthy]. constructor; [by apply Hrev | constructor].
  - destruct (isspace c) eqn:Hc; [|apply IH; by constructor].
    destruct cur as [|d cur]; [by apply IH|].
    cbn [truthy]. constructor; [by apply Hrev | by apply IH].
Qed.

Lemma split_ws_words (s : str) : Forall is_word (split_ws s).
Proof. by apply split_ws_from_words. Qed.

(** [" ".join(ws).split() == ws] for words. *)
Lemma split_ws_join_words (ws : list str) :
  Forall is_word ws -> split_ws (join [SP] ws) = ws.
Proof.
  induction 1 as [|w ws Hw Hall IH]; [done|].
  destruct ws as [|w' ws']; [by apply split_ws_word|].
  rewrite join_cons by done.
  change (w ++ [SP] ++ join [SP] (w' :: ws'))
    with (w ++ SP :: join [SP] (w' :: ws')).
  unfold split_ws at 1. rewrite split_ws_from_app_space by done.
  fold (split_ws w). rewrite split_ws_word by done. by rewrite IH.
Qed.

(** The words of lines joined by newlines are the words of the lines. *)
Lemma split_ws_join_lines (ls : list str) :
  split_ws (join [LF] ls) = words_of ls.
Proof.
  unfold words_of. induction ls as [|l ls IH]; [done|].
  destruct ls as [|l' ls']; [simpl; by rewrite app_nil_r|].
  rewrite join_cons by done.
  change (l ++ [LF] ++ join [LF] (l' :: ls'))
    with (l ++ LF :: join [LF] (l' :: ls')).
  unfold split_ws at 1. rewrite split_ws_from_app_space by done.
  fold (split_ws l). by rewrite IH.
Qed.

Lemma split_ws_lines (text : str) :
  split_ws text = words_of (split_on LF text).
Proof. by rewrite <- split_ws_join_lines, join_split_on. Qed.

Lemma words_of_app (xs ys : list str) :
  words_of (xs ++ ys) = words_of xs ++ words_of ys.
Proof. unfold words_of. by rewrite map_app, concat_app. Qed.

Lemma words_of_singleton (x : str) : words_of [x] = split_ws x.
Proof. unfold words_of. simpl. by rewrite app_nil_r. Qed.

(** ** The splitter loses no word and no fitting line *)

Section SplitterWords.

Variable tiktoken_count : str -> option nat.
Variable max_tokens : Z.
Local Abbreviation wstep := (word_step tiktoken_count max_tokens).
Local Abbreviation lstep := (line_step tiktoken_count max_tokens).

(** The word loop keeps the words in order. *)
Lemma word_loop_words (ws : list str) (st : buffer) :
  Forall is_word ws -> Forall is_word (pending st) ->
  words_of (chunks (fold_left wstep ws st)) ++ pending (fold_left wstep ws st)
  = words_of (chunks st) ++ pending st ++ ws
  /\ Forall is_word (pending (fold_left wstep ws st)).
Proof.
  intros Hws. revert st. induction Hws as [|w ws Hw Hws IH]; intros st Hp.
  - simpl. by rewrite app_nil_r.
  - cbn [fold_left].
    assert (Hstep : words_of (chunks (wstep st w)) ++ pending (wstep st w)
                    = words_of (chunks st) ++ pending st ++ [w]
                    /\ Forall is_word (pending (wstep st w))).
    { unfold word_step. destruct (_ && _); cbn [chunks pending].
      - rewrite words_of_app, words_of_singleton, split_ws_join_words by done.
        split; [by rewrite <- app_assoc | constructor; [done | constructor]].
      - split; [done|]. apply Forall_app.
        split; [done | constructor; [done | constructor]]. }
    destruct Hstep as [Heq Hp1]. destruct (IH _ Hp1) as [IHeq IHp].
    split; [|done]. rewrite IHeq, app_assoc, Heq. by rewrite <- !app_assoc.
Qed.

(** One line: in order whenever nothing is pending or the line fits, and
    up to the order of the words in general. *)
Lemma line_step_words (st : buffer) (line : str) :
  (pending st = []
   \/ estimate_tokens tiktoken_count (line ++ [LF]) <= max_tokens ->
   words_of (chunks (lstep st line)) ++ words_of (pending (lstep st line))
   = words_of (chunks st) ++ words_of (pending st) ++ split_ws line)
  /\ words_of (chunks (lstep st line)) ++ words_of (pending (lstep st line))
     ≡ₚ words_of (chunks st) ++ words_of (pending st) ++ split_ws line.
Proof.
  unfold line_step. destruct (_ >? _) eqn:Hbig.
  - rewrite Z.gtb_ltb in Hbig. apply Z.ltb_lt in Hbig.
    set (ws := fold_left _ _ _).
    destruct (word_loop_words (split_ws line) (Buffer (chunks st) [] 0))
      as [Hw Hp]; [apply split_ws_words | constructor |].
    fold ws in Hw, Hp. cbn [chunks pending] in Hw. simpl app in Hw.
    destruct (truthy (pending ws)) eqn:Hpw.
    + destruct (truthy (pending st)) eqn:Hps; cbn [chunks pending].
      * rewrite !words_of_app, !words_of_singleton.
        rewrite split_ws_join_lines, split_ws_join_words by done.
        rewrite app_nil_r. split.
        -- intros [Hnil | Hfit]; [|lia]. by rewrite Hnil in Hps.
        -- rewrite <- !app_assoc.
           transitivity ((words_of (chunks ws) ++ pending ws)
                           ++ words_of (pending st)).
           ++ rewrite <- app_assoc.
              apply Permutation_app_head, Permutation_app_comm.
           ++ rewrite Hw, <- app_assoc.
              apply Permutation_app_head, Permutation_app_comm.
      * apply truthy_false in Hps. rewrite Hps.
        rewrite words_of_app, words_of_singleton.
        rewrite split_ws_join_words by done.
        simpl. rewrite !app_nil_r. by rewrite Hw.
    + apply truthy_false in Hpw. rewrite Hpw, app_nil_r in Hw.
      cbn [chunks pending]. rewrite Hw. split.
      * intros [Hnil | Hfit]; [|lia]. rewrite Hnil. simpl.
        by rewrite !app_nil_r.
      * rewrite <- !app_assoc.
        apply Permutation_app_head, Permutation_app_comm.
  - destruct (_ && _); cbn [chunks pending].
    + rewrite !words_of_app, !words_of_singleton, split_ws_join_lines.
      rewrite <- app_assoc. by split.
    + rewrite words_of_app, words_of_singleton. by split.
Qed.

Lemma line_loop_words (ls : list str) (st : buffer) :
  words_of (chunks (fold_left lstep ls st))
  ++ words_of (pending (fold_left lstep ls st))
  ≡ₚ words_of (chunks st) ++ words_of (pending st) ++ words_of ls.
Proof.
  revert st. induction ls as [|l ls IH]; intros st.
  - simpl. unfold words_of at 5. simpl. by rewrite app_nil_r.
  - cbn [fold_left]. rewrite IH.
    destruct (line_step_words st l) as [_ Hperm].
    rewrite app_assoc, Hperm.
    change (l :: ls) with ([l] ++ ls).
    rewrite words_of_app, words_of_singleton. by rewrite <- !app_assoc.
Qed.

(** Lines that fit are regrouped, never altered. *)
Lemma line_loop_groups (ls : list str) (st : buffer) :
  (forall l, l ∈ ls ->
     estimate_tokens tiktoken_count (l ++ [LF]) <= max_tokens) ->
  exists groups,
    Forall (fun g => g <> []) groups
    /\ chunks (fold_left lstep ls st) = chunks st ++ map (join [LF]) groups
    /\ concat groups ++ pending (fold_left lstep ls st) = pending st ++ ls.
Proof.
  revert st. induction ls as [|l ls IH]; intros st Hfit.
  - exists []. simpl. by rewrite !app_nil_r.
  - cbn [fold_left].
    assert (Hstep :
              (pending st <> []
               /\ chunks (lstep st l) = chunks st ++ [join [LF] (pending st)]
               /\ pending (lstep st l) = [l])
              \/ (chunks (lstep st l) = chunks st
                  /\ pending (lstep st l) = pending st ++ [l])).
    { specialize (Hfit l ltac:(left)). unfold line_step.
      destruct (_ >? _) eqn:Hbig;
        [rewrite Z.gtb_ltb in Hbig; apply Z.ltb_lt in Hbig; lia|].
      destruct (_ && _) eqn:Hflush; cbn [chunks pending]; [left | by right].
      by apply andb_true_iff in Hflush as [_ Hp%truthy_true]. }
    destruct (IH (lstep st l)) as (groups & Hne & Hch & Hcat).
    { intros l' Hl'. apply Hfit. by right. }
    destruct Hstep as [(Hp & Hc1 & Hp1) | (Hc1 & Hp1)].
    + exists (pending st :: groups). rewrite Hch, Hc1. split_and!.
      * by constructor.
      * simpl. by rewrite <- app_assoc.
      * simpl. by rewrite <- app_assoc, Hcat, Hp1.
    + exists groups. rewrite Hch, Hc1. split_and!; [done | done |].
      rewrite Hcat, Hp1. by rewrite <- app_assoc.
Qed.

End SplitterWords.


(** X3: when every line of the text fits the limit on its own, the chunks
    joined by newlines are the text again: lines are regrouped, none is
    altered or dropped. *)
Theorem split_fitting_lines_lossless
        (tiktoken_count : str -> option nat) (text : str) (max_tokens : Z) :
  (forall l, l ∈ split_on LF text ->
     estimate_tokens tiktoken_count (l ++ [LF]) <= max_tokens) ->
  join [LF] (split_text_by_tokens tiktoken_count text max_tokens) = text.
Proof.
  intros Hfit. unfold split_text_by_tokens.
  destruct (_ <=? _); [done|]. unfold lines_done.
  destruct (line_loop_groups tiktoken_count max_tokens (split_on LF text)
              (Buffer [] [] 0) Hfit) as (groups & Hne & Hch & Hcat).
  cbn [chunks pending] in Hch, Hcat. simpl in Hch, Hcat.
  set (st := fold_left _ _ _) in *.
  assert (Htext : join [LF] (concat groups ++ pending st) = text)
    by (rewrite Hcat; apply join_split_on).
  rewrite Hch. etransitivity; [|exact Htext].
  destruct (truthy (pending st)) eqn:Hp.
  - apply truthy_true in Hp.
    change [join [LF] (pending st)] with (map (join [LF]) [pending st]).
    rewrite <- map_app, join_groups.
    + by rewrite concat_app; simpl; rewrite app_nil_r.
    + apply Forall_app. split; [done | by repeat constructor].
  - apply truthy_false in Hp. rewrite Hp, app_nil_r. by apply join_groups.
Qed.

Lemma split_fitting_lines_lossless_witness :
  let text := lit "ab cd" ++ [LF] ++ lit "efg" in
  split_text_by_tokens length_counter text 6 = [lit "ab cd"; lit "efg"]
  /\ join [LF] (split_text_by_tokens length_counter text 6) = text.
Proof.
  intros text. split; [reflexivity|].
  apply (split_fitting_lines_lossless length_counter text 6).
  intros l Hl. vm_compute in Hl.
  repeat (apply elem_of_cons in Hl as [-> | Hl]; [by vm_compute|]).
  by apply elem_of_nil in Hl.
Defined.

(** Once every line has been read, the chunks and the lines still pending
    hold the words of the text. *)
Lemma lines_done_words
      (tiktoken_count : str -> option nat) (text : str) (max_tokens : Z) :
  words_of (chunks (lines_done tiktoken_count text max_tokens))
  ++ words_of (pending (lines_done tiktoken_count text max_tokens))
  ≡ₚ split_ws text.
Proof.
  pose proof (line_loop_words tiktoken_count max_tokens (split_on LF text)
                (Buffer [] [] 0)) as Hperm.
  cbn [chunks pending] in Hperm. simpl app in Hperm.
  by rewrite <- split_ws_lines in Hperm.
Qed.

(** X4: the chunks hold exactly the words of the text, each as often as
    the text has it: no word is lost, duplicated or cut, whatever the
    counter and the limit. *)
Theorem split_keeps_every_word
        (tiktoken_count : str -> option nat) (text : str) (max_tokens : Z) :
  words_of (split_text_by_tokens tiktoken_count text max_tokens)
  ≡ₚ split_ws text.
Proof.
  unfold split_text_by_tokens. destruct (_ <=? _).
  - by rewrite words_of_singleton.
  - rewrite <- (lines_done_words tiktoken_count text max_tokens).
    destruct (truthy _) eqn:Hp.
    + by rewrite words_of_app, words_of_singleton, split_ws_join_lines.
    + apply truthy_false in Hp. rewrite Hp.
      unfold words_of at 3. simpl. by rewrite app_nil_r.
Qed.

Lemma split_on_absent (sep : char) (s : str) :
  sep ∉ s -> split_on sep s = [s].
Proof.
  induction s as [|c s IH]; intros Hsep; simpl; [done|].
  destruct (c =? sep)%N eqn:Hc.
  - apply N.eqb_eq in Hc as ->. exfalso. apply Hsep. left.
  - rewrite IH; [done|]. intros H. apply Hsep. by right.
Qed.

(** X5: for a text of a single line, the words of the chunks, read in
    order, are the words of the text in their order. *)
Theorem split_single_line_in_order
        (tiktoken_count : str -> option nat) (text : str) (max_tokens : Z) :
  LF ∉ text ->
  words_of (split_text_by_tokens tiktoken_count text max_tokens)
  = split_ws text.
Proof.
  intros Hone. unfold split_text_by_tokens. destruct (_ <=? _).
  - by rewrite words_of_singleton.
  - unfold lines_done. rewrite split_on_absent by done. cbn [fold_left].
    destruct (line_step_words tiktoken_count max_tokens (Buffer [] [] 0) text)
      as [Heq _].
    specialize (Heq ltac:(by left)). cbn [chunks pending] in Heq.
    simpl app in Heq. rewrite <- Heq.
    destruct (truthy _) eqn:Hp.
    + by rewrite words_of_app, words_of_singleton, split_ws_join_lines.
    + apply truthy_false in Hp. rewrite Hp.
      unfold words_of at 3. simpl. by rewrite app_nil_r.
Qed.

Lemma split_single_line_in_order_witness :
  words_of (split_text_by_tokens length_counter (lit "ab  cd ef gh ") 6)
  = [lit "ab"; lit "cd"; lit "ef"; lit "gh"].
Proof.
  rewrite (split_single_line_in_order length_counter (lit "ab  cd ef gh ") 6).
  - reflexivity.
  - intros H. vm_compute in H. elem_cases H.
Defined.

(** X6: [read_and_split_file] returns the empty list, which [process_file]
    reports as a failure to read or split, only when the file could not be
    read or when its text is over the limit and holds no word at all. *)
Theorem read_and_split_file_empty
        (tiktoken_count : str -> option nat) (file : option str)
        (max_tokens : Z) :
  read_and_split_file tiktoken_count file max_tokens = [] ->
  file = None
  \/ exists text, file = Some text /\ split_ws text = []
                  /\ estimate_tokens tiktoken_count text > max_tokens.
Proof.
  destruct file as [text|]; [|by left]. simpl. intros Hempty. right.
  exists text. split_and!; [done | |].
  - pose proof (lines_done_words tiktoken_count text max_tokens) as Hperm.
    unfold split_text_by_tokens in Hempty.
    destruct (_ <=? _); [done|].
    destruct (truthy _) eqn:Hp;
      [by apply app_eq_nil in Hempty as [_ ?]|].
    apply truthy_false in Hp. rewrite Hempty, Hp in Hperm.
    by apply Permutation_nil_l in Hperm.
  - unfold split_text_by_tokens in Hempty.
    destruct (_ <=? _) eqn:Hfast; [done|]. lia.
Qed.

Lemma read_and_split_file_empty_witness :
  let blank := [SP; SP; SP; SP; SP; SP] in
  read_and_split_file no_tiktoken (Some blank) 1 = []
  /\ (Some blank = None
      \/ exists text, Some blank = Some text /\ split_ws text = []
                      /\ estimate_tokens no_tiktoken text > 1).
Proof.
  intros blank.
  assert (Hempty : read_and_split_file no_tiktoken (Some blank) 1 = [])
    by reflexivity.
  split; [exact Hempty|].
  exact (read_and_split_file_empty no_tiktoken (Some blank) 1 Hempty).
Defined.

(** ** Stripping *)

Lemma lstrip_spaces_app (ws s : str) :
  Forall (fun c => isspace c = true) ws -> lstrip (ws ++ s) = lstrip s.
Proof. induction 1 as [|c ws Hc _ IH]; simpl; [done|]. by rewrite Hc. Qed.

Lemma lstrip_app_nonspace (a b : str) (c : char) :
  isspace c = false -> lstrip (a ++ c :: b) = lstrip a ++ c :: b.
Proof.
  intros Hc. induction a as [|d a IH]; simpl; [by rewrite Hc|].
  by destruct (isspace d).
Qed.

Lemma rstrip_spaces_app (s ws : str) :
  Forall (fun c => isspace c = true) ws -> rstrip (s ++ ws) = rstrip s.
Proof.
  intros Hws. unfold rstrip. rewrite rev_app_distr, lstrip_spaces_app; [done|].
  rewrite Forall_forall in *. intros c Hc. apply Hws.
  apply list_elem_of_In. apply in_rev. by apply list_elem_of_In.
Qed.

(** Stripping on the right never reaches past a character that is not
    whitespace. *)
Lemma rstrip_app_nonspace (a b : str) (c : char) :
  isspace c = false -> rstrip (a ++ c :: b) = a ++ c :: rstrip b.
Proof.
  intros Hc. unfold rstrip.
  replace (a ++ c :: b) with ((a ++ [c]) ++ b) by (by rewrite <- app_assoc).
  rewrite rev_app_distr, rev_app_distr. simpl.
  rewrite lstrip_app_nonspace by done.
  rewrite rev_app_distr. simpl. rewrite rev_involutive.
  by rewrite <- app_assoc.
Qed.

Lemma rstrip_nil : rstrip [] = [].
Proof. reflexivity. Qed.

Lemma slice_fenced (opening body : str) (k : Z) :
  k = len opening ->
  slice (opening ++ body) k (-3) = take (length body - 3) body.
Proof.
  intros ->. unfold slice, adjust_index.
  assert (Hn : len (opening ++ body) = len opening + len body)
    by (unfold len; rewrite length_app; lia).
  destruct (len opening <? 0) eqn:Hneg; [unfold len in *; lia|].
  change (-3 <? 0) with true. cbn iota.
  rewrite (Z.min_l (len opening)) by (unfold len in *; lia).
  replace (Z.to_nat (len opening)) with (length opening)
    by (unfold len; lia).
  rewrite drop_app_length. f_equal. unfold len in *. lia.
Qed.

(** ** Cleaning the model's reply *)

Lemma startswith_app (p s : str) : startswith (p ++ s) p = true.
Proof.
  induction p as [|c p IH]; [done|].
  cbn [app startswith]. by rewrite N.eqb_refl, IH.
Qed.

Lemma strip_fenced (ws opening rest : str) (c : char) :
  Forall (fun c => isspace c = true) ws ->
  lstrip opening = opening -> isspace c = false ->
  strip (ws ++ opening ++ c :: rest) = opening ++ c :: rstrip rest.
Proof.
  intros Hws Hopen Hc. unfold strip. rewrite lstrip_spaces_app by done.
  rewrite lstrip_app_nonspace, Hopen by done.
  by rewrite rstrip_app_nonspace.
Qed.

(** What is left of a reply that opens with the plain fence. *)
Lemma clean_fenced_plain (ws rest : str) :
  Forall (fun c => isspace c = true) ws ->
  startswith (rstrip rest) [106; 115; 111; 110]%N = false ->
  clean_response (ws ++ fence ++ rest)
  = take (length (rstrip rest) - 3) (rstrip rest).
Proof.
  intros Hws Hplain. unfold clean_response. cbn zeta.
  change (fence ++ rest) with ([96; 96]%N ++ 96%N :: rest).
  rewrite strip_fenced by done.
  change ([96; 96]%N ++ 96%N :: rstrip rest) with (fence ++ rstrip rest).
  change (startswith (fence ++ rstrip rest) fence_json)
    with (startswith (rstrip rest) [106; 115; 111; 110]%N).
  rewrite Hplain, startswith_app. by apply slice_fenced.
Qed.

Lemma rstrip_closing_fence (body ws : str) :
  Forall (fun c => isspace c = true) ws ->
  rstrip (body ++ fence ++ ws) = body ++ fence.
Proof.
  intros Hws. change (body ++ fence ++ ws) with (body ++ [96; 96]%N ++ 96%N :: ws).
  rewrite app_assoc, rstrip_app_nonspace by done.
  rewrite <- (app_nil_l ws), rstrip_spaces_app by done.
  by rewrite <- app_assoc.
Qed.

(** X7: a reply wrapped in a json fence, or in a plain fence whose body
    does not begin with "json", with any whitespace around it, is cleaned
    to exactly the body between the fences. *)
Theorem clean_response_unwraps (ws1 ws2 body : str) :
  Forall (fun c => isspace c = true) ws1 ->
  Forall (fun c => isspace c = true) ws2 ->
  clean_response (ws1 ++ fence_json ++ body ++ fence ++ ws2) = body
  /\ (startswith (body ++ fence) [106; 115; 111; 110]%N = false ->
      clean_response (ws1 ++ fence ++ body ++ fence ++ ws2) = body).
Proof.
  intros Hws1 Hws2.
  assert (Hcut : take (length (body ++ fence) - 3) (body ++ fence) = body).
  { rewrite length_app. simpl length.
    replace (length body + 3 - 3)%nat with (length body) by lia.
    apply take_app_length. }
  split.
  - unfold clean_response. cbn zeta.
    change (fence_json ++ body ++ fence ++ ws2)
      with ([96; 96; 96; 106; 115; 111]%N ++ 110%N :: body ++ fence ++ ws2).
    rewrite strip_fenced by done.
    change ([96; 96; 96; 106; 115; 111]%N
              ++ 110%N :: rstrip (body ++ fence ++ ws2))
      with (fence_json ++ rstrip (body ++ fence ++ ws2)).
    rewrite startswith_app, slice_fenced by done.
    by rewrite rstrip_closing_fence.
  - intros Hplain.
    rewrite clean_fenced_plain;
      [by rewrite rstrip_closing_fence | done
      | by rewrite rstrip_closing_fence].
Qed.

Lemma clean_response_unwraps_witness :
  clean_response ([SP; LF] ++ fence_json ++ ([LF] ++ lit "{}" ++ [LF])
                    ++ fence ++ [LF])
  = [LF] ++ lit "{}" ++ [LF]
  /\ clean_response ([SP] ++ fence ++ lit "[1]" ++ fence ++ []) = lit "[1]".
Proof.
  split.
  - apply (clean_response_unwraps [SP; LF] [LF] ([LF] ++ lit "{}" ++ [LF]));
      by repeat constructor.
  - apply (clean_response_unwraps [SP] [] (lit "[1]"));
      [by repeat constructor | constructor | reflexivity].
Defined.

(** X8: a reply that opens with the json fence, after any whitespace, is
    cut by seven characters in front and, once stripped, by three at the
    end, whatever those last three characters are: the closing fence is
    never looked at, so a reply whose fence is not closed loses the end of
    its body. *)
Theorem clean_response_cuts_three (ws body : str) :
  Forall (fun c => isspace c = true) ws ->
  clean_response (ws ++ fence_json ++ body)
  = take (length (rstrip body) - 3) (rstrip body).
Proof.
  intros Hws. unfold clean_response. cbn zeta.
  change (fence_json ++ body)
    with ([96; 96; 96; 106; 115; 111]%N ++ 110%N :: body).
  rewrite strip_fenced by done.
  change ([96; 96; 96; 106; 115; 111]%N ++ 110%N :: rstrip body)
    with (fence_json ++ rstrip body).
  rewrite startswith_app. by apply slice_fenced.
Qed.

Lemma clean_response_cuts_three_witness :
  clean_response ([LF] ++ fence_json ++ lit "{}  ") = [].
Proof.
  rewrite (clean_response_cuts_three [LF] (lit "{}  "));
    [reflexivity | by repeat constructor].
Defined.

(** ** The sampler: windows, step budget and segments *)

Lemma slice_len (s : str) (a b : Z) :
  0 <= a <= b -> b <= len s -> len (slice s a b) = b - a.
Proof.
  intros Hab Hb. rewrite slice_take_drop by lia.
  unfold len in *. rewrite length_take, length_drop. lia.
Qed.

(** A slice is a contiguous piece of the string. *)
Lemma slice_infix (s : str) (a b : Z) :
  exists l1 l2, s = l1 ++ slice s a b ++ l2.
Proof.
  unfold slice.
  set (i := Z.to_nat (adjust_index (len s) a)).
  set (k := Z.to_nat (adjust_index (len s) b - adjust_index (len s) a)).
  exists (take i s), (drop k (drop i s)).
  by rewrite (take_drop k (drop i s)), take_drop.
Qed.

(** No raw window is longer than 64000 characters. *)
Lemma windows_short (full : str) :
  len (raw_begins full) <= 64000 /\ len (raw_middle full) <= 64000
  /\ len (raw_ends full) <= 64000.
Proof.
  assert (Hn : 0 <= len full) by (unfold len; lia).
  unfold raw_begins, raw_middle, raw_ends, slice_to, slice_from,
    SEGMENT_MAX_TOKENS, TOKEN_TO_CHAR_RATIO.
  split_and!; rewrite slice_len; try lia;
    Z.to_euclidean_division_equations; lia.
Qed.

(** For a text of at most 64000 characters every window is the text. *)
Lemma windows_of_short_text (full : str) :
  len full <= 64000 ->
  raw_begins full = full /\ raw_middle full = full /\ raw_ends full = full.
Proof.
  intros Hshort. assert (Hn : 0 <= len full) by (unfold len; lia).
  assert (Hall : forall a b, a = 0 -> b = len full -> slice full a b = full).
  { intros a b -> ->. rewrite slice_take_drop by lia.
    simpl. apply take_ge. unfold len. lia. }
  unfold raw_begins, raw_middle, raw_ends, slice_to, slice_from,
    SEGMENT_MAX_TOKENS, TOKEN_TO_CHAR_RATIO.
  split_and!; apply Hall; try done;
    Z.to_euclidean_division_equations; lia.
Qed.

Lemma sixteen_steps (fuel : nat) (s : str) :
  (16 <= fuel)%nat -> len s <= 64000 -> len s < 2 ^ Z.of_nat fuel.
Proof.
  intros Hfuel Hs.
  assert (2 ^ 16 <= 2 ^ Z.of_nat fuel) by (apply Z.pow_le_mono_r; lia).
  lia.
Qed.

Section SamplerBudget.

Variable count_tokens_api : str -> option Z.

Lemma trim_and_measure_terminates (fuel : nat) (full : str) (limit : Z) :
  (16 <= fuel)%nat ->
  trim_and_measure count_tokens_api fuel (raw_begins full) (raw_middle full)
                   (raw_ends full) limit <> OutOfFuel.
Proof.
  intros Hfuel. destruct (windows_short full) as (Hb & Hm & He).
  pose proof (trim_terminates count_tokens_api fuel _ limit
                (sixteen_steps fuel _ Hfuel Hb)) as Tb.
  pose proof (trim_terminates count_tokens_api fuel _ limit
                (sixteen_steps fuel _ Hfuel Hm)) as Tm.
  pose proof (trim_terminates count_tokens_api fuel _ limit
                (sixteen_steps fuel _ Hfuel He)) as Te.
  unfold trim_and_measure.
  destruct (_trim_to_token_limit _ _ (raw_begins full) _); try done.
  destruct (_trim_to_token_limit _ _ (raw_middle full) _); try done.
  destruct (_trim_to_token_limit _ _ (raw_ends full) _); try done.
  simpl. unfold _count_tokens. by destruct (count_tokens_api _).
Qed.

End SamplerBudget.

(** X9: whatever the length of the text and whatever the counter answers,
    [_build_representative_sample] finishes (returns or raises) when each
    search loop may run 16 iterations: the raw windows never exceed 64000
    characters. *)
Theorem sample_needs_sixteen_steps
        (count_tokens_api : str -> option Z) (fuel : nat) (text : str) :
  (16 <= fuel)%nat ->
  _build_representative_sample count_tokens_api fuel text <> OutOfFuel.
Proof.
  intros Hfuel. unfold _build_representative_sample.
  destruct (negb _); [done|].
  pose proof (trim_and_measure_terminates count_tokens_api fuel (strip text)
                SEGMENT_MAX_TOKENS Hfuel) as H1.
  destruct (trim_and_measure _ _ _ _ _ SEGMENT_MAX_TOKENS) as [first| |];
    try done.
  cbn [mbind outcome_bind].
  destruct (_ >? _); [|done].
  pose proof (trim_and_measure_terminates count_tokens_api fuel (strip text)
                (new_limit (total_tok first)) Hfuel) as H2.
  by destruct (trim_and_measure _ _ _ _ _ (new_limit _)).
Qed.

Lemma sample_needs_sixteen_steps_witness :
  _build_representative_sample thousand_per_char 16 alphabet_text <> OutOfFuel.
Proof. apply sample_needs_sixteen_steps. lia. Defined.

Lemma lstrip_idempotent (s : str) : lstrip (lstrip s) = lstrip s.
Proof.
  induction s as [|c s IH]; simpl; [done|].
  destruct (isspace c) eqn:Hc; [done|]. simpl. by rewrite Hc.
Qed.

Lemma strip_idempotent (s : str) : strip (strip s) = strip s.
Proof.
  unfold strip.
  assert (Hr : forall y, rstrip (rstrip y) = rstrip y).
  { intros y. unfold rstrip. by rewrite rev_involutive, lstrip_idempotent. }
  assert (Hl : lstrip (rstrip (lstrip s)) = rstrip (lstrip s)).
  { pose proof (lstrip_idempotent s) as Hy.
    destruct (lstrip s) as [|c y]; [done|].
    simpl in Hy. destruct (isspace c) eqn:Hc.
    - exfalso. pose proof (lstrip_length y) as Hlen.
      apply (f_equal length) in Hy. simpl in Hy. lia.
    - pose proof (rstrip_app_nonspace [] y c Hc) as Hcut.
      simpl app in Hcut. rewrite Hcut. simpl. by rewrite Hc. }
  by rewrite Hl, Hr.
Qed.

Lemma new_limit_bounds (total : Z) :
  total > 22000 -> 2000 <= new_limit total <= 8000.
Proof.
  intros Hover. unfold new_limit, SEGMENT_MAX_TOKENS, TARGET_TOTAL_SAMPLE_TOKENS.
  rewrite (Z.max_l total 1) by lia. split; [lia|].
  apply Z.max_lub; [lia|].
  apply Z.div_le_upper_bound; lia.
Qed.

Section SamplerSegments.

Variable count_tokens_api : str -> option Z.
Variable tok : str -> Z.
Hypothesis Hapi : forall s, count_tokens_api s = Some (tok s).

Local Abbreviation segment_ok := (trimmed_segment tok).

(** The quick accept of the trimmer. *)
Lemma trim_accepts (fuel : nat) (text : str) (max_tokens : Z) :
  strip text <> [] -> tok text <= max_tokens ->
  _trim_to_token_limit count_tokens_api fuel text max_tokens = Returns text.
Proof.
  intros Hne%truthy_true Hfit. unfold _trim_to_token_limit.
  rewrite Hne. cbn [negb].
  rewrite (count_tokens_returns count_tokens_api tok Hapi). simpl.
  by apply Z.leb_le in Hfit as ->.
Qed.

Lemma pass_segments (fuel : nat) (full : str) (limit : Z) :
  (16 <= fuel)%nat ->
  exists b m e,
    segment_ok (raw_begins full) limit b
    /\ segment_ok (raw_middle full) limit m
    /\ segment_ok (raw_ends full) limit e
    /\ trim_and_measure count_tokens_api fuel (raw_begins full)
         (raw_middle full) (raw_ends full) limit
       = Returns (Pass (labelled b m e) (combine (labelled b m e))
                       (tok (combine (labelled b m e)))).
Proof.
  intros Hfuel. destruct (windows_short full) as (Hb & Hm & He).
  destruct (trim_spec count_tokens_api tok Hapi fuel _ limit
              (sixteen_steps fuel _ Hfuel Hb)) as (b & Hrb & Hpb & Hfb & _).
  destruct (trim_spec count_tokens_api tok Hapi fuel _ limit
              (sixteen_steps fuel _ Hfuel Hm)) as (m & Hrm & Hpm & Hfm & _).
  destruct (trim_spec count_tokens_api tok Hapi fuel _ limit
              (sixteen_steps fuel _ Hfuel He)) as (e & Hre & Hpe & Hfe & _).
  exists b, m, e. split_and!; try done.
  unfold trim_and_measure. rewrite Hrb, Hrm, Hre. simpl.
  by rewrite (count_tokens_returns count_tokens_api tok Hapi).
Qed.

Lemma sample_segments (fuel : nat) (text : str) :
  strip text <> [] -> (16 <= fuel)%nat ->
  exists limit b m e,
    2000 <= limit <= 8000
    /\ segment_ok (raw_begins (strip text)) limit b
    /\ segment_ok (raw_middle (strip text)) limit m
    /\ segment_ok (raw_ends (strip text)) limit e
    /\ exists meta,
         _build_representative_sample count_tokens_api fuel text
         = Returns (combine (labelled b m e), meta).
Proof.
  intros Hne%truthy_true Hfuel.
  destruct (pass_segments fuel (strip text) SEGMENT_MAX_TOKENS Hfuel)
    as (b1 & m1 & e1 & Hb1 & Hm1 & He1 & Hp1).
  unfold _build_representative_sample. rewrite Hne. cbn [negb].
  rewrite Hp1. cbn [mbind outcome_bind total_tok].
  destruct (_ >? _) eqn:Hover.
  - destruct (pass_segments fuel (strip text)
                (new_limit (tok (combine (labelled b1 m1 e1)))) Hfuel)
      as (b2 & m2 & e2 & Hb2 & Hm2 & He2 & Hp2).
    rewrite Hp2. cbn [mbind outcome_bind].
    exists (new_limit (tok (combine (labelled b1 m1 e1)))), b2, m2, e2.
    split.
    { apply new_limit_bounds. unfold TARGET_TOTAL_SAMPLE_TOKENS in Hover. lia. }
    split_and!; try done. by eexists.
  - exists SEGMENT_MAX_TOKENS, b1, m1, e1.
    split; [unfold SEGMENT_MAX_TOKENS; lia|].
    split_and!; try done. by eexists.
Qed.

End SamplerSegments.

(** X10: for a text that is not blank and a counter that answers, with 16
    iterations allowed to each search loop whatever the length of the
    text, the sampler returns a sample built from three segments, each of
    them empty or counting at most 8000 tokens: the first pass trims to
    8000 and the correction pass to a limit between 2000 and 8000. *)
Theorem sample_segments_within_limit
        (count_tokens_api : str -> option Z) (tok : str -> Z)
        (fuel : nat) (text : str) :
  (forall s, count_tokens_api s = Some (tok s)) ->
  strip text <> [] -> (16 <= fuel)%nat ->
  exists sample meta b m e,
    _build_representative_sample count_tokens_api fuel text
    = Returns (sample, meta)
    /\ sample = combine (labelled b m e)
    /\ Forall (fun seg => seg = [] \/ tok seg <= 8000) [b; m; e].
Proof.
  intros Hapi Hne Hfuel.
  destruct (sample_segments count_tokens_api tok Hapi fuel text Hne Hfuel)
    as (limit & b & m & e & Hlim & [_ Hb] & [_ Hm] & [_ He] & meta & Hret).
  exists (combine (labelled b m e)), meta, b, m, e.
  split_and!; [done | done |].
  assert (Hseg : forall seg, seg = [] \/ tok seg <= limit ->
                              seg = [] \/ tok seg <= 8000)
    by (intros seg [H | H]; [by left | right; lia]).
  constructor; [by apply Hseg|].
  constructor; [by apply Hseg|].
  constructor; [by apply Hseg | constructor].
Qed.

Lemma sample_segments_within_limit_witness :
  exists sample meta b m e,
    _build_representative_sample thousand_per_char 16 alphabet_text
    = Returns (sample, meta)
    /\ sample = combine (labelled b m e)
    /\ Forall (fun seg => seg = [] \/ 1000 * len seg <= 8000) [b; m; e].
Proof.
  apply (sample_segments_within_limit thousand_per_char
           (fun s => 1000 * len s) 16 alphabet_text);
    [done | by vm_compute | lia].
Defined.

Lemma raw_begins_prefix (full : str) : raw_begins full `prefix_of` full.
Proof.
  unfold raw_begins. rewrite slice_to_take; [apply prefix_take|].
  unfold SEGMENT_MAX_TOKENS, TOKEN_TO_CHAR_RATIO, len. lia.
Qed.

Lemma prefix_of_slice_infix (seg s : str) (a b : Z) :
  seg `prefix_of` slice s a b -> exists l1 l2, s = l1 ++ seg ++ l2.
Proof.
  intros [k Hk]. destruct (slice_infix s a b) as (l1 & l2 & Hs).
  exists l1, (k ++ l2). rewrite Hs at 1. rewrite Hk. by rewrite <- app_assoc.
Qed.

(** X11: every segment of the returned sample is taken verbatim from the
    stripped text: the begin segment is a prefix of it, the middle and end
    segments are contiguous pieces of it. *)
Theorem sample_segments_verbatim
        (count_tokens_api : str -> option Z) (tok : str -> Z)
        (fuel : nat) (text : str) :
  (forall s, count_tokens_api s = Some (tok s)) ->
  strip text <> [] -> (16 <= fuel)%nat ->
  exists sample meta b m e,
    _build_representative_sample count_tokens_api fuel text
    = Returns (sample, meta)
    /\ sample = combine (labelled b m e)
    /\ b `prefix_of` strip text
    /\ (exists l1 l2, strip text = l1 ++ m ++ l2)
    /\ (exists l1 l2, strip text = l1 ++ e ++ l2).
Proof.
  intros Hapi Hne Hfuel.
  destruct (sample_segments count_tokens_api tok Hapi fuel text Hne Hfuel)
    as (limit & b & m & e & Hlim & [Hb _] & [Hm _] & [He _] & meta & Hret).
  exists (combine (labelled b m e)), meta, b, m, e.
  split_and!; [done | done | | |].
  - etransitivity; [exact Hb | apply raw_begins_prefix].
  - unfold raw_middle in Hm. cbn zeta in Hm.
    by eapply prefix_of_slice_infix.
  - unfold raw_ends, slice_from in He. cbn zeta in He.
    by eapply prefix_of_slice_infix.
Qed.

Lemma sample_segments_verbatim_witness :
  exists sample meta b m e,
    _build_representative_sample thousand_per_char 16 alphabet_text
    = Returns (sample, meta)
    /\ sample = combine (labelled b m e)
    /\ b `prefix_of` strip alphabet_text
    /\ (exists l1 l2, strip alphabet_text = l1 ++ m ++ l2)
    /\ (exists l1 l2, strip alphabet_text = l1 ++ e ++ l2).
Proof.
  apply (sample_segments_verbatim thousand_per_char
           (fun s => 1000 * len s) 16 alphabet_text);
    [done | by vm_compute | lia].
Defined.

(** X12: a short text is sampled three times over: when the stripped text
    has at most 64000 characters and counts at most 8000 tokens, and the
    three labelled copies together stay within 22000 tokens, the sample is
    the whole text under each of the three labels, for any step budget. *)
Theorem sample_of_short_text
        (count_tokens_api : str -> option Z) (tok : str -> Z)
        (fuel : nat) (text : str) :
  (forall s, count_tokens_api s = Some (tok s)) ->
  strip text <> [] ->
  len (strip text) <= 64000 ->
  tok (strip text) <= 8000 ->
  tok (combine (labelled (strip text) (strip text) (strip text))) <= 22000 ->
  exists meta,
    _build_representative_sample count_tokens_api fuel text
    = Returns (combine (labelled (strip text) (strip text) (strip text)), meta)
    /\ meta !! "segments_included"
       = Some (MList [title_begin; title_middle; title_end]).
Proof.
  intros Hapi Hne Hshort Hfit Hbudget.
  destruct (windows_of_short_text (strip text) Hshort) as (Wb & Wm & We).
  assert (Htrim : _trim_to_token_limit count_tokens_api fuel (strip text)
                    SEGMENT_MAX_TOKENS = Returns (strip text)).
  { apply (trim_accepts count_tokens_api tok Hapi);
      [by rewrite strip_idempotent | done]. }
  pose proof Hne as Ht%truthy_true.
  unfold _build_representative_sample, trim_and_measure.
  rewrite Ht. cbn [negb]. rewrite Wb, Wm, We, Htrim. cbn [mbind outcome_bind].
  rewrite (count_tokens_returns count_tokens_api tok Hapi).
  cbn [mbind outcome_bind mret outcome_ret total_tok].
  fold (labelled (strip text) (strip text) (strip text)).
  unfold TARGET_TOTAL_SAMPLE_TOKENS.
  destruct (_ >? 22000) eqn:Hover;
    [rewrite Z.gtb_ltb in Hover; apply Z.ltb_lt in Hover; lia|].
  eexists. split; [reflexivity|].
  rewrite sample_meta_included. cbn [segments].
  rewrite included_labelled, strip_idempotent, Ht. reflexivity.
Qed.

Lemma sample_of_short_text_witness :
  exists meta,
    _build_representative_sample by_length 0 (lit " abc ")
    = Returns (combine (labelled (lit "abc") (lit "abc") (lit "abc")), meta)
    /\ meta !! "segments_included"
       = Some (MList [title_begin; title_middle; title_end]).
Proof.
  apply (sample_of_short_text by_length len 0 (lit " abc "));
    [done | by vm_compute | by vm_compute | by vm_compute | by vm_compute].
Defined.

(** ** Merging characters *)

Section MergeCharacters.

Variable self_id : str.
Local Abbreviation merge := (merge_character self_id).

(** One element of the reply touches only the record it names. *)
Lemma merge_character_lookup (cs : gmap str character_entry)
      (char : character_json) (k : str) :
  merge cs char !! k
  = if names k char
    then Some (update_existing (default (first_seen self_id k char) (cs !! k))
                               char)
    else cs !! k.
Proof.
  unfold merge_character, names.
  destruct (json_name char) as [char_name|] eqn:Hname; [|done].
  destruct (truthy char_name) eqn:Htruthy; cbn [negb andb]; [|done].
  cbn zeta.
  destruct (decide (strip char_name = k)) as [<- | Hother].
  - rewrite bool_decide_eq_true_2 by done.
    destruct (cs !! strip char_name) as [e|] eqn:Hold; simpl.
    + by rewrite Hold, lookup_insert_eq.
    + rewrite !lookup_insert_eq. unfold first_seen. by rewrite Hname.
  - rewrite bool_decide_eq_false_2 by done.
    destruct (cs !! strip char_name) as [e|] eqn:Hold.
    + by rewrite Hold, lookup_insert_ne.
    + rewrite lookup_insert_eq. by rewrite !lookup_insert_ne.
Qed.

(** The elements of a reply act on each record independently. *)
Lemma merge_all_lookup (chars : list character_json)
      (cs : gmap str character_entry) (k : str) :
  fold_left merge chars cs !! k = merged_entry self_id k (cs !! k) chars.
Proof.
  unfold merged_entry. revert cs.
  induction chars as [|char chars IH]; intros cs; [done|].
  cbn [fold_left]. by rewrite IH, merge_character_lookup.
Qed.

Lemma occurrences_cons (k : str) (char : character_json)
      (chars : list character_json) :
  occurrences k (char :: chars)
  = (if names k char then 1 else 0) + occurrences k chars.
Proof.
  unfold occurrences. simpl. destruct (names k char); simpl length; lia.
Qed.

Lemma occurrences_nonneg (k : str) (chars : list character_json) :
  0 <= occurrences k chars.
Proof. unfold occurrences. lia. Qed.

Lemma merged_entry_mentions (k : str) (chars : list character_json)
      (cur : option character_entry) :
  match merged_entry self_id k cur chars with
  | Some e => mentions e = mentions_before cur + occurrences k chars
              /\ (cur = None -> 0 < occurrences k chars)
  | None => cur = None /\ occurrences k chars = 0
  end.
Proof.
  unfold merged_entry. revert cur.
  induction chars as [|char chars IH]; intros cur.
  - simpl. unfold occurrences, mentions_before. simpl.
    destruct cur; [split; [lia | done] | done].
  - cbn [fold_left]. rewrite occurrences_cons.
    pose proof (occurrences_nonneg k chars) as Hpos.
    destruct (names k char).
    + specialize (IH (Some (update_existing
                              (default (first_seen self_id k char) cur) char))).
      destruct (fold_left _ _ _) as [e|]; [|by destruct IH].
      destruct IH as [IH _]. split; [|lia].
      rewrite IH. unfold mentions_before, update_existing, first_seen.
      destruct cur; simpl; lia.
    + specialize (IH cur). destruct (fold_left _ _ _) as [e|].
      * destruct IH as [IH1 IH2]. split; [lia | intros H; specialize (IH2 H); lia].
      * destruct IH. split; [done | lia].
Qed.

Lemma merged_entry_untouched (k : str) (chars : list character_json)
      (cur : option character_entry) :
  occurrences k chars = 0 -> merged_entry self_id k cur chars = cur.
Proof.
  unfold merged_entry. revert cur.
  induction chars as [|char chars IH]; intros cur Hnone; [done|].
  cbn [fold_left]. rewrite occurrences_cons in Hnone.
  pose proof (occurrences_nonneg k chars).
  destruct (names k char); [lia|]. apply IH. lia.
Qed.

Lemma grown_refl (e : character_entry) : grown e e.
Proof. unfold grown. split_and!; try done; lia. Qed.

Lemma grown_trans (e1 e2 e3 : character_entry) :
  grown e1 e2 -> grown e2 e3 -> grown e1 e3.
Proof.
  unfold grown. intros (?&?&?&?&?&?) (?&?&?&?&?&?).
  split_and!; try congruence; try set_solver; lia.
Qed.

Lemma update_existing_grown (e : character_entry) (char : character_json) :
  grown e (update_existing e char).
Proof.
  unfold grown, update_existing. cbn.
  split_and!; try done; try lia.
  - destruct (json_traits char); set_solver.
  - destruct (json_role char); set_solver.
Qed.

Lemma merged_entry_grown (k : str) (chars : list character_json)
      (e : character_entry) :
  exists e', merged_entry self_id k (Some e) chars = Some e' /\ grown e e'.
Proof.
  unfold merged_entry. revert e.
  induction chars as [|char chars IH]; intros e.
  - exists e. split; [done | apply grown_refl].
  - cbn [fold_left]. destruct (names k char).
    + cbn [default].
      destruct (IH (update_existing e char)) as (e' & Heq & Hg).
      exists e'. split; [done|].
      eapply grown_trans; [apply update_existing_grown | done].
    + apply IH.
Qed.

End MergeCharacters.

Section MergeInvariants.

Variable self_id : str.

Lemma merged_entry_keyed (k : str) (chars : list character_json)
      (cur : option character_entry) :
  (forall e, cur = Some e ->
     character_id e = k /\ novel_id e = self_id /\ strip (name e) = k
     /\ 2 <= mentions e) ->
  forall e', merged_entry self_id k cur chars = Some e' ->
    character_id e' = k /\ novel_id e' = self_id /\ strip (name e') = k
    /\ 2 <= mentions e'.
Proof.
  unfold merged_entry. revert cur.
  induction chars as [|char chars IH]; intros cur Hcur e' He'; [by apply Hcur|].
  cbn [fold_left] in He'. destruct (names k char) eqn:Hnames; [|by eapply IH].
  eapply IH; [|exact He']. intros e [= <-].
  unfold update_existing. cbn.
  destruct cur as [e0|]; cbn.
  - destruct (Hcur e0 eq_refl) as (? & ? & ? & ?). split_and!; try done; lia.
  - unfold names in Hnames.
    destruct (json_name char) as [char_name|]; [|done].
    apply andb_true_iff in Hnames as [_ Hk%bool_decide_eq_true].
    split_and!; try done; lia.
Qed.

Lemma merge_all_well_keyed (chars : list character_json)
      (cs : gmap str character_entry) :
  well_keyed self_id cs ->
  well_keyed self_id (fold_left (merge_character self_id) chars cs).
Proof.
  intros Hcs k e' He'. rewrite merge_all_lookup in He'.
  eapply merged_entry_keyed; [|exact He'].
  intros e He. by apply Hcs.
Qed.

Lemma merged_entry_collects (k : str) (chars : list character_json)
      (cur : option character_entry) (char : character_json) :
  char ∈ chars -> names k char = true ->
  exists e', merged_entry self_id k cur chars = Some e'
             /\ (forall ts t, json_traits char = Some ts -> t ∈ ts ->
                              t ∈ traits e')
             /\ (forall r, json_role char = Some r -> r ∈ roles e').
Proof.
  unfold merged_entry. revert cur.
  induction chars as [|c0 chars IH]; intros cur Hin Hnames.
  - by apply elem_of_nil in Hin.
  - cbn [fold_left]. apply elem_of_cons in Hin as [<- | Hin]; [|by apply IH].
    rewrite Hnames.
    destruct (merged_entry_grown self_id k chars
                (update_existing (default (first_seen self_id k char) cur) char))
      as (e' & He' & (_ & _ & _ & Ht & Hr & _)).
    exists e'. split; [exact He'|]. split.
    + intros ts t Hts Hel. apply Ht. unfold update_existing. cbn.
      rewrite Hts. apply elem_of_union_r. by apply elem_of_list_to_set.
    + intros r Hrole. apply Hr. unfold update_existing. cbn.
      rewrite Hrole. apply elem_of_union_r. by apply elem_of_singleton.
Qed.

End MergeInvariants.

Lemma fold_left_append {A B : Type} (f : B -> A) (l : list B) (init : list A) :
  fold_left (fun acc x => acc ++ [f x]) l init = init ++ map f l.
Proof.
  revert init. induction l as [|x l IH]; intros init; simpl.
  - by rewrite app_nil_r.
  - by rewrite IH, <- app_assoc.
Qed.

(** ** [_merge_data] and [process_novel] *)

Lemma tag_keys_differ : lit "chunk_index" <> lit "novel_id".
Proof. intros H. by vm_compute in H. Qed.

Section MergeDialogues.

Variable json : Type.
Variable json_str : str -> json.
Variable json_int : Z -> json.

Lemma tag_dialogue_retagged (self_id : str) (idx : Z) (dial : gmap str json) :
  retagged json_str json_int self_id idx dial
           (tag_dialogue json json_str json_int self_id idx dial).
Proof.
  unfold retagged, tag_dialogue. split_and!.
  - by rewrite lookup_insert_eq.
  - rewrite lookup_insert_ne by apply tag_keys_differ.
    by rewrite lookup_insert_eq.
  - intros key H1 H2. by rewrite !lookup_insert_ne.
Qed.

Lemma merge_data_dialogues (self : ingester json) (data : chunk_data json)
      (idx : Z) :
  dialogues json (_merge_data json json_str json_int self data idx)
  = dialogues json self
    ++ map (tag_dialogue json json_str json_int (self_novel_id json self) idx)
           (data_dialogues json data).
Proof. unfold _merge_data. cbn [dialogues]. apply fold_left_append. Qed.

End MergeDialogues.

(** Reading a parsed value needs no loop of its own: it returns or
    raises. *)
Lemma bind_within_fuel {A B : Type} (m : outcome A) (k : A -> outcome B) :
  m <> OutOfFuel -> (forall a, k a <> OutOfFuel) -> m ≫= k <> OutOfFuel.
Proof. intros Hm Hk. destruct m; simpl; [apply Hk | done | done]. Qed.

Lemma mapM_within_fuel {A B : Type} (f : A -> outcome B) (l : list A) :
  (forall x, f x <> OutOfFuel) -> mapM f l <> OutOfFuel.
Proof.
  intros Hf. induction l as [|x l IH]; [done|].
  cbn [mapM]. apply bind_within_fuel; [apply Hf|]. intros y.
  apply bind_within_fuel; [exact IH | done].
Qed.

Lemma py_iter_within_fuel (v : json_value) : py_iter v <> OutOfFuel.
Proof. by destruct v. Qed.

Lemma py_hash_within_fuel (v : json_value) : py_hash v <> OutOfFuel.
Proof. by destruct v. Qed.

Lemma read_character_within_fuel (char : json_value) :
  read_character char <> OutOfFuel.
Proof.
  destruct char as [| | | | |xs|d]; try done. unfold read_character.
  destruct (negb _); [done|].
  destruct (default JNull (d !! lit "name")); try done.
  apply bind_within_fuel.
  - destruct (d !! lit "traits") as [v|]; [|done].
    apply bind_within_fuel; [apply py_iter_within_fuel|]. intros items.
    apply bind_within_fuel; [|done].
    apply mapM_within_fuel, py_hash_within_fuel.
  - intros char_traits. apply bind_within_fuel; [|done].
    destruct (d !! lit "role") as [v|]; [|done].
    apply bind_within_fuel; [apply py_hash_within_fuel | done].
Qed.

Lemma read_data_within_fuel (data : json_value) : read_data data <> OutOfFuel.
Proof.
  destruct data as [| | | | |xs|d]; try done. unfold read_data.
  apply bind_within_fuel; [apply py_iter_within_fuel|]. intros chars.
  apply bind_within_fuel;
    [apply mapM_within_fuel, read_character_within_fuel|]. intros cs.
  apply bind_within_fuel; [apply py_iter_within_fuel|]. intros dials.
  apply bind_within_fuel; [|done].
  apply mapM_within_fuel. by intros [].
Qed.

Section IngestFacts.

Variable generate_content : str -> option str.
Variable json_loads : str -> option json_value.

Local Abbreviation chunks_loop := (process_chunks generate_content json_loads).
Local Abbreviation ill := (ill_shaped_reply generate_content json_loads).
Local Abbreviation self_id := (self_novel_id json_value).
Local Abbreviation records := (characters json_value).
Local Abbreviation stored := (dialogues json_value).

(** One round of the loop, with a client. *)
Lemma process_chunks_cons (chunk : str) (rest : list str) (i : Z)
      (self : ingester json_value) :
  chunks_loop true (chunk :: rest) i self
  = self1 ← match generate_content chunk with
            | Some r =>
                match json_loads (clean_response r) with
                | Some v => if py_truthy v then merge_reply self v i
                            else Returns self
                | None => Returns self
                end
            | None => Returns self
            end;
    chunks_loop true rest (i + 1) self1.
Proof.
  cbn [process_chunks]. unfold extract_from_chunk. cbn [negb mbind outcome_bind].
  destruct (generate_content chunk) as [r|]; [|done].
  by destruct (json_loads (clean_response r)).
Qed.

(** A chunk that gives nothing to merge leaves the ingester as it is. *)
Lemma process_chunks_skip (chunk : str) (rest : list str) (i : Z)
      (self : ingester json_value) :
  nothing_extracted generate_content json_loads chunk ->
  chunks_loop true (chunk :: rest) i self = chunks_loop true rest (i + 1) self.
Proof.
  intros Hnone. rewrite process_chunks_cons.
  destruct (generate_content chunk) as [r|] eqn:Hr; [|done].
  destruct (json_loads (clean_response r)) as [v|] eqn:Hv; [|done].
  by rewrite (Hnone r v Hr Hv).
Qed.

(** The loop over two runs of chunks is the loop over the first followed
    by the loop over the second, which goes on counting. *)
Lemma process_chunks_app (has_client : bool) (before after : list str) (i : Z)
      (self : ingester json_value) :
  chunks_loop has_client (before ++ after) i self
  = self1 ← chunks_loop has_client before i self;
    chunks_loop has_client after (i + Z.of_nat (length before)) self1.
Proof.
  revert i self. induction before as [|chunk before IH]; intros i self.
  - cbn [app process_chunks length mbind outcome_bind].
    by rewrite Z.add_0_r.
  - cbn [app process_chunks length].
    destruct (extract_from_chunk _ _ _ _) as [data| |];
      cbn [mbind outcome_bind]; [|done|done].
    destruct (match data with
              | Some v => if py_truthy v then merge_reply self v i
                          else Returns self
              | None => Returns self
              end) as [self1| |]; cbn [mbind outcome_bind]; [|done|done].
    rewrite IH. by replace (i + 1 + Z.of_nat (length before))
      with (i + Z.of_nat (S (length before))) by lia.
Qed.

(** What the loop over the chunks keeps and adds when it returns. *)
Lemma process_chunks_spec (chunks : list str) (i : Z)
      (self self' : ingester json_value) :
  0 <= i ->
  chunks_loop true chunks i self = Returns self' ->
  self_id self' = self_id self
  /\ (well_keyed (self_id self) (records self) ->
      well_keyed (self_id self) (records self'))
  /\ (forall k e, records self !! k = Some e ->
        exists e', records self' !! k = Some e' /\ grown e e')
  /\ exists news,
       stored self' = stored self ++ news
       /\ Forall (tagged JStr JInt (self_id self)
                         (i + Z.of_nat (length chunks))) news.
Proof.
  revert i self. induction chunks as [|chunk chunks IH]; intros i self Hi Hrun.
  - simpl in Hrun. injection Hrun as <-. split_and!; try done.
    + intros k e He. exists e. split; [done | apply grown_refl].
    + exists []. by rewrite app_nil_r.
  - rewrite process_chunks_cons in Hrun.
    assert (Hskip : chunks_loop true chunks (i + 1) self = Returns self' ->
              self_id self' = self_id self
              /\ (well_keyed (self_id self) (records self) ->
                  well_keyed (self_id self) (records self'))
              /\ (forall k e, records self !! k = Some e ->
                    exists e', records self' !! k = Some e' /\ grown e e')
              /\ exists news,
                   stored self' = stored self ++ news
                   /\ Forall (tagged JStr JInt (self_id self)
                                (i + Z.of_nat (length (chunk :: chunks)))) news).
    { intros Hrest. destruct (IH (i + 1) self ltac:(lia) Hrest)
        as (Hid & Hkeyed & Hgrown & news & Hd & Htag).
      split_and!; try done. exists news. split; [done|].
      replace (i + Z.of_nat (length (chunk :: chunks)))
        with (i + 1 + Z.of_nat (length chunks)) by (cbn [length]; lia).
      done. }
    destruct (generate_content chunk) as [r|]; [|by apply Hskip].
    destruct (json_loads (clean_response r)) as [v|]; [|by apply Hskip].
    destruct (py_truthy v); [|by apply Hskip].
    unfold merge_reply in Hrun.
    destruct (read_data v) as [data| |]; cbn [mbind outcome_bind mret outcome_ret] in Hrun;
      [|done|done].
    destruct (IH (i + 1) _ ltac:(lia) Hrun)
      as (Hid & Hkeyed & Hgrown & news & Hd & Htag).
    cbn [_merge_data self_novel_id characters] in Hid, Hkeyed, Hgrown, Htag.
    split_and!; [done | | |].
    + intros Hwk. apply Hkeyed. by apply merge_all_well_keyed.
    + intros k e He.
      destruct (merged_entry_grown (self_id self) k
                  (data_characters json_value data) e) as (e1 & He1 & Hg1).
      destruct (Hgrown k e1) as (e' & He' & Hg').
      { by rewrite merge_all_lookup, He. }
      exists e'. split; [done | by eapply grown_trans].
    + rewrite merge_data_dialogues in Hd.
      exists (map (tag_dialogue json_value JStr JInt (self_id self) i)
                  (data_dialogues json_value data) ++ news).
      split; [by rewrite Hd, <- app_assoc|].
      replace (i + Z.of_nat (length (chunk :: chunks)))
        with (i + 1 + Z.of_nat (length chunks)) by (cbn [length]; lia).
      apply Forall_app. split; [|done].
      apply Forall_forall. intros d Hd'.
      apply list_elem_of_fmap in Hd' as (d0 & -> & _).
      exists i. destruct (tag_dialogue_retagged json_value JStr JInt
                            (self_id self) i d0) as (H1 & H2 & _).
      split_and!; try done; lia.
Qed.

(** With a client the loop returns or raises, and it raises exactly when
    one of the chunks has an ill-shaped reply. *)
Lemma process_chunks_outcome (chunks : list str) (i : Z)
      (self : ingester json_value) :
  match chunks_loop true chunks i self with
  | Returns _ => forall chunk, chunk ∈ chunks -> ~ ill chunk
  | Raises => exists chunk, chunk ∈ chunks /\ ill chunk
  | OutOfFuel => False
  end.
Proof.
  revert i self. induction chunks as [|chunk chunks IH]; intros i self.
  - simpl. intros chunk Hin. by apply elem_of_nil in Hin.
  - rewrite process_chunks_cons.
    assert (Hgo : forall self1,
               ~ ill chunk ->
               match chunks_loop true chunks (i + 1) self1 with
               | Returns _ => forall c, c ∈ chunk :: chunks -> ~ ill c
               | Raises => exists c, c ∈ chunk :: chunks /\ ill c
               | OutOfFuel => False
               end).
    { intros self1 Hfine. specialize (IH (i + 1) self1).
      destruct (chunks_loop true chunks (i + 1) self1); [| |done].
      - intros c [-> | Hc]%elem_of_cons; [done | by apply IH].
      - destruct IH as (c & Hc & Hill). exists c. split; [by right | done]. }
    destruct (generate_content chunk) as [r|] eqn:Hr;
      cbn [mbind outcome_bind];
      [|apply Hgo; by intros (r & v & Hr' & _); congruence].
    destruct (json_loads (clean_response r)) as [v|] eqn:Hv;
      cbn [mbind outcome_bind];
      [|apply Hgo; intros (r' & v' & Hr' & Hv' & _); congruence].
    destruct (py_truthy v) eqn:Ht; cbn [mbind outcome_bind];
      [|apply Hgo; intros (r' & v' & Hr' & Hv' & Ht' & _); congruence].
    unfold merge_reply. pose proof (read_data_within_fuel v) as Hfuel.
    destruct (read_data v) as [data| |] eqn:Hread;
      cbn [mbind outcome_bind mret outcome_ret]; [| |done].
    + apply Hgo. intros (r' & v' & Hr' & Hv' & _ & Hraise). congruence.
    + exists chunk. split; [left|]. by exists r, v.
Qed.

Lemma default_chunks (fuel : nat) (text : str) :
  (length text <= fuel)%nat ->
  exists chunks, chunk_text fuel text 15000 500 = Returns chunks.
Proof.
  intros Hfuel. unfold chunk_text.
  apply chunk_loop_returns; unfold len; lia.
Qed.

End IngestFacts.

(** Replies of the wrong shape, and of an unusual one: [_merge_data]
    raises on [{"characters": null}], on a character whose name is a
    number, and on a dialogue that is a string; it takes a role that is a
    number and traits given as one string, whose characters become the
    traits. *)
Example shapes_of_replies :
  read_data (json_object [(lit "characters", JNull)]) = Raises
  /\ read_data (json_object
                  [(lit "characters",
                    JList [json_object [(lit "name", JInt 7)]])]) = Raises
  /\ read_data (json_object [(lit "dialogues", JList [JStr (lit "hi")])])
     = Raises
  /\ read_data (json_object
                  [(lit "characters",
                    JList [json_object [(lit "name", JStr (lit "Ali"));
                                        (lit "role", JInt 5);
                                        (lit "traits", JStr (lit "ab"))]])])
     = Returns (ChunkData json_value
                  [CharacterJson (Some (lit "Ali"))
                                 (Some [HStr (lit "a"); HStr (lit "b")])
                                 (Some (HInt 5))]
                  []).
Proof. by vm_compute. Qed.

(** Numbers in a set count by their value, whatever their type; NaN is
    truthy and the negative zero is not. *)
Example numbers_in_replies :
  py_hash (JBool true) = py_hash (JInt 1)
  /\ py_hash (JFloat 1%float) = py_hash (JInt 1)
  /\ py_hash (JFloat 0.5%float)
     = Returns (HFraction false 4503599627370496 (-53))
  /\ py_truthy (JFloat PrimFloat.nan) = true
  /\ py_truthy (JFloat PrimFloat.neg_zero) = false.
Proof. by vm_compute. Qed.

(** X13: merging a reply counts one mention for each of its elements that
    names the character (by a non-empty name that strips to the
    character's id), on top of the count so far, or of the 1 a new record
    starts with; a character the reply does not name keeps its record, or
    its absence, unchanged. *)
Theorem merge_counts_mentions
        (json : Type) (json_str : str -> json) (json_int : Z -> json)
        (self : ingester json) (data : chunk_data json) (idx : Z) (k : str) :
  (occurrences k (data_characters json data) = 0 ->
   characters json (_merge_data json json_str json_int self data idx) !! k
   = characters json self !! k)
  /\ (0 < occurrences k (data_characters json data) ->
      exists e,
        characters json (_merge_data json json_str json_int self data idx) !! k
        = Some e
        /\ mentions e = mentions_before (characters json self !! k)
                        + occurrences k (data_characters json data)).
Proof.
  unfold _merge_data. cbn [characters]. rewrite merge_all_lookup. split.
  - apply merged_entry_untouched.
  - intros Hsome.
    pose proof (merged_entry_mentions (self_novel_id json self) k
                  (data_characters json data) (characters json self !! k))
      as Hm.
    destruct (merged_entry _ _ _ _) as [e|].
    + exists e. by destruct Hm.
    + destruct Hm. lia.
Qed.

Lemma merge_counts_mentions_witness :
  let data := ChunkData plain_json
                [CharacterJson (Some (lit " Ali")) None None;
                 CharacterJson (Some []) None None;
                 CharacterJson (Some (lit "Ali ")) None (Some (HStr (lit "hero")))]
                [] in
  exists e,
    characters plain_json
      (_merge_data plain_json inl inr (fresh_ingester (lit "n1")) data 0)
    !! lit "Ali" = Some e
    /\ mentions e = 1 + 2.
Proof.
  intros data.
  destruct (merge_counts_mentions plain_json inl inr
              (fresh_ingester (lit "n1")) data 0 (lit "Ali")) as [_ H].
  destruct H as (e & He & Hm); [by vm_compute|].
  exists e. split; [exact He|]. rewrite Hm. by vm_compute.
Defined.

(** X14: merging a reply never loses what is recorded: every character
    keeps its record, with the same id, novel and name, at least the
    traits and roles it had, and no fewer mentions. *)
Theorem merge_never_forgets
        (json : Type) (json_str : str -> json) (json_int : Z -> json)
        (self : ingester json) (data : chunk_data json) (idx : Z)
        (k : str) (e : character_entry) :
  characters json self !! k = Some e ->
  exists e',
    characters json (_merge_data json json_str json_int self data idx) !! k
    = Some e'
    /\ grown e e'.
Proof.
  intros He. unfold _merge_data. cbn [characters].
  rewrite merge_all_lookup, He. apply merged_entry_grown.
Qed.

Lemma merge_never_forgets_witness :
  let known := CharacterEntry (lit "Ali") (lit "n1") (lit "Ali")
                 {[ HStr (lit "kind") ]} ∅ 2 in
  let self := Ingester plain_json (lit "n1") {[ lit "Ali" := known ]} [] in
  let data := ChunkData plain_json
                [CharacterJson (Some (lit "Ali "))
                               (Some [HStr (lit "brave")]) None]
                [] in
  exists e',
    characters plain_json (_merge_data plain_json inl inr self data 3)
    !! lit "Ali" = Some e'
    /\ grown known e'.
Proof.
  intros known self data.
  apply (merge_never_forgets plain_json inl inr self data 3). reflexivity.
Defined.

(** X15: nothing the reply says about a named character is dropped: after
    the merge the record under the stripped name holds every trait and the
    role of each element that names it. *)
Theorem merge_collects_traits
        (json : Type) (json_str : str -> json) (json_int : Z -> json)
        (self : ingester json) (data : chunk_data json) (idx : Z)
        (char : character_json) (char_name : str) :
  char ∈ data_characters json data ->
  json_name char = Some char_name -> char_name <> [] ->
  exists e,
    characters json (_merge_data json json_str json_int self data idx)
    !! strip char_name = Some e
    /\ (forall ts t, json_traits char = Some ts -> t ∈ ts -> t ∈ traits e)
    /\ (forall r, json_role char = Some r -> r ∈ roles e).
Proof.
  intros Hin Hname Hne%truthy_true. unfold _merge_data. cbn [characters].
  rewrite merge_all_lookup. apply merged_entry_collects; [done|].
  unfold names. rewrite Hname, Hne. by rewrite bool_decide_eq_true_2.
Qed.

Lemma merge_collects_traits_witness :
  let char := CharacterJson (Some (lit " Ali")) (Some [HStr (lit "brave")])
                            (Some (HStr (lit "hero"))) in
  let data := ChunkData plain_json [char] [] in
  exists e,
    characters plain_json
      (_merge_data plain_json inl inr (fresh_ingester (lit "n1")) data 0)
    !! lit "Ali" = Some e
    /\ HStr (lit "brave") ∈ traits e /\ HStr (lit "hero") ∈ roles e.
Proof.
  intros char data.
  destruct (merge_collects_traits plain_json inl inr
              (fresh_ingester (lit "n1")) data 0 char (lit " Ali"))
    as (e & He & Ht & Hr); [left | reflexivity | done |].
  exists e. split_and!; [exact He | | by apply Hr].
  apply (Ht [HStr (lit "brave")]); [reflexivity | left].
Defined.

(** X16: the dialogues of a reply are stored after those already there, in
    the order of the reply and one for one, each with "chunk_index" and
    "novel_id" set to the chunk's index and the ingester's novel, whatever
    the reply held under these keys, and every other key as in the
    reply. *)
Theorem merge_tags_dialogues
        (json : Type) (json_str : str -> json) (json_int : Z -> json)
        (self : ingester json) (data : chunk_data json) (idx : Z) :
  exists news,
    dialogues json (_merge_data json json_str json_int self data idx)
    = dialogues json self ++ news
    /\ Forall2 (retagged json_str json_int (self_novel_id json self) idx)
               (data_dialogues json data) news.
Proof.
  eexists. split; [apply merge_data_dialogues|].
  induction (data_dialogues json data) as [|d ds IH]; [constructor|].
  constructor; [apply tag_dialogue_retagged | exact IH].
Qed.

(** X17: with a client and a step budget that covers the text,
    [process_novel] returns when no chunk of the text has a reply that
    parses to a truthy value on which [_merge_data] raises, and it raises
    when some chunk has one; when it returns it keeps the records well
    keyed: each character sits under its own id, which is its stripped
    name, belongs to the ingester's novel and counts at least two
    mentions, since a record is created with one mention and counted once
    more at once. *)
Theorem process_novel_keeps_records_keyed
        (generate_content : str -> option str)
        (json_loads : str -> option json_value)
        (fuel : nat) (text : str) (self : ingester json_value) :
  (length text <= fuel)%nat ->
  well_keyed (self_novel_id json_value self) (characters json_value self) ->
  exists chunks,
    chunk_text fuel text 15000 500 = Returns chunks
    /\ ((forall chunk, chunk ∈ chunks ->
           ~ ill_shaped_reply generate_content json_loads chunk) ->
        exists self',
          process_novel generate_content json_loads fuel true text self
          = Returns self'
          /\ well_keyed (self_novel_id json_value self)
                        (characters json_value self'))
    /\ ((exists chunk, chunk ∈ chunks
                       /\ ill_shaped_reply generate_content json_loads chunk) ->
        process_novel generate_content json_loads fuel true text self
        = Raises).
Proof.
  intros Hfuel Hwk.
  destruct (default_chunks fuel text Hfuel) as [chunks Hchunks].
  exists chunks. split; [exact Hchunks|].
  unfold process_novel. rewrite Hchunks. cbn [mbind outcome_bind].
  pose proof (process_chunks_outcome generate_content json_loads chunks 0 self)
    as Hout.
  pose proof (process_chunks_spec generate_content json_loads chunks 0 self)
    as Hspec.
  destruct (process_chunks generate_content json_loads true chunks 0 self)
    as [self'| |]; [| |done].
  - split.
    + intros _. exists self'. split; [done|].
      destruct (Hspec self' ltac:(lia) eq_refl) as (_ & Hkeyed & _).
      by apply Hkeyed.
    + intros (chunk & Hin & Hill). by destruct (Hout chunk Hin).
  - split; [|done].
    intros Hfine. destruct Hout as (chunk & Hin & Hill).
    by destruct (Hfine chunk Hin).
Qed.

Lemma one_character_read (s : str) :
  exists d, forall v, one_character s = Some v -> read_data v = Returns d.
Proof.
  destruct s as [|c s].
  - eexists. intros v H. injection H as <-. vm_compute. reflexivity.
  - eexists. intros v H. injection H as <-. vm_compute. reflexivity.
Qed.

Lemma fresh_well_keyed (self_id : str) : well_keyed self_id ∅.
Proof. intros k e H. by rewrite lookup_empty in H. Qed.

Lemma process_novel_keeps_records_keyed_witness :
  (exists self',
     process_novel echo_in_fence one_character 3 true (lit "Ali")
                   (fresh_ingester (lit "n1"))
     = Returns self'
     /\ well_keyed (lit "n1") (characters json_value self'))
  /\ process_novel echo_in_fence characters_null 3 true (lit "Ali")
                   (fresh_ingester (lit "n1"))
     = Raises.
Proof.
  split.
  - destruct (process_novel_keeps_records_keyed echo_in_fence one_character
                3 (lit "Ali") (fresh_ingester (lit "n1")))
      as (chunks & _ & Hreturns & _);
      [simpl; lia | apply fresh_well_keyed |].
    apply Hreturns. intros chunk _ (r & v & _ & Hv & _ & Hraise).
    destruct (one_character_read (clean_response r)) as [d Hd].
    rewrite (Hd v Hv) in Hraise. discriminate Hraise.
  - destruct (process_novel_keeps_records_keyed echo_in_fence characters_null
                3 (lit "Ali") (fresh_ingester (lit "n1")))
      as (chunks & Hchunks & _ & Hraises);
      [simpl; lia | apply fresh_well_keyed |].
    apply Hraises. exists (lit "Ali"). split.
    + vm_compute in Hchunks. injection Hchunks as <-. left.
    + eexists _, _. split_and!; reflexivity.
Defined.

(** X18: with a client and a step budget that covers the text,
    [process_novel] returns or raises, and raises only when the reply to
    one of the chunks parses to a truthy value on which [_merge_data]
    raises; when it returns, every dialogue it added carries the
    ingester's novel and the index of one of the chunks the text was cut
    into, and the dialogues held before the run stay in front,
    untouched. *)
Theorem process_novel_tags_dialogues
        (generate_content : str -> option str)
        (json_loads : str -> option json_value)
        (fuel : nat) (text : str) (self : ingester json_value) :
  (length text <= fuel)%nat ->
  exists chunks,
    chunk_text fuel text 15000 500 = Returns chunks
    /\ match process_novel generate_content json_loads fuel true text self with
       | Returns self' =>
           exists news,
             dialogues json_value self' = dialogues json_value self ++ news
             /\ Forall (tagged JStr JInt (self_novel_id json_value self)
                               (Z.of_nat (length chunks))) news
       | Raises =>
           exists chunk,
             chunk ∈ chunks
             /\ ill_shaped_reply generate_content json_loads chunk
       | OutOfFuel => False
       end.
Proof.
  intros Hfuel.
  destruct (default_chunks fuel text Hfuel) as [chunks Hchunks].
  exists chunks. split; [exact Hchunks|].
  unfold process_novel. rewrite Hchunks. cbn [mbind outcome_bind].
  pose proof (process_chunks_outcome generate_content json_loads chunks 0 self)
    as Hout.
  pose proof (process_chunks_spec generate_content json_loads chunks 0 self)
    as Hspec.
  destruct (process_chunks generate_content json_loads true chunks 0 self)
    as [self'| |]; [|done|done].
  destruct (Hspec self' ltac:(lia) eq_refl) as (_ & _ & _ & news & Hd & Htag).
  by exists news.
Qed.

Lemma process_novel_tags_dialogues_witness :
  exists self' news,
    process_novel echo_in_fence one_character 3 true (lit "Ali")
                  (fresh_ingester (lit "n1"))
    = Returns self'
    /\ dialogues json_value self' = news
    /\ Forall (tagged JStr JInt (lit "n1") 1) news
    /\ length news = 1%nat.
Proof.
  destruct (process_novel_tags_dialogues echo_in_fence one_character
              3 (lit "Ali") (fresh_ingester (lit "n1")))
    as (chunks & Hchunks & Hrun); [simpl; lia|].
  vm_compute in Hchunks. injection Hchunks as <-.
  destruct (process_novel echo_in_fence one_character 3 true (lit "Ali")
              (fresh_ingester (lit "n1"))) as [self'| |] eqn:Hret.
  - destruct Hrun as (news & Hd & Htag).
    exists self', news. split_and!; [reflexivity | exact Hd | exact Htag |].
    change news with (dialogues json_value (fresh_ingester (lit "n1")) ++ news).
    rewrite <- Hd.
    vm_compute in Hret. injection Hret as <-. reflexivity.
  - vm_compute in Hret. discriminate Hret.
  - destruct Hrun.
Defined.

Lemma chunk_text_chunk_sizes_aux (fuel : nat) (text : str) :
  text <> [] -> (length text <= fuel)%nat ->
  exists full last_chunk,
    chunk_text fuel text 15000 500 = Returns (full ++ [last_chunk]).
Proof.
  intros Hne Hfuel. unfold chunk_text.
  destruct (chunk_loop_sizes fuel text 15000 500 0 [])
    as (full & lst & Hret & _); try done; unfold len; try lia.
  - destruct text; [done | simpl; lia].
  - by exists full, lst.
Qed.

(** X19: without a client [process_novel] raises on every text that is not
    empty, before anything is merged; on the empty text it returns the
    ingester as it was, with or without a client. *)
Theorem process_novel_without_client
        (generate_content : str -> option str)
        (json_loads : str -> option json_value)
        (fuel : nat) (text : str) (self : ingester json_value) :
  (text <> [] -> (length text <= fuel)%nat ->
   process_novel generate_content json_loads fuel false text self = Raises)
  /\ (forall has_client,
        process_novel generate_content json_loads fuel has_client [] self
        = Returns self).
Proof.
  split.
  - intros Hne Hfuel. unfold process_novel.
    destruct (chunk_text_chunk_sizes_aux fuel text) as (full & lst & Hchunks);
      [done | done |].
    rewrite Hchunks. cbn [mbind outcome_bind].
    by destruct full.
  - intros has_client. unfold process_novel, chunk_text.
    by destruct fuel.
Qed.

Lemma process_novel_without_client_witness :
  process_novel echo_in_fence one_character 3 false (lit "Ali")
                (fresh_ingester (lit "n1")) = Raises
  /\ process_novel echo_in_fence one_character 3 false []
                   (fresh_ingester (lit "n1"))
     = Returns (fresh_ingester (lit "n1")).
Proof.
  split.
  - apply (process_novel_without_client echo_in_fence one_character
             3 (lit "Ali") (fresh_ingester (lit "n1")));
      [done | simpl; lia].
  - apply (process_novel_without_client echo_in_fence one_character
             3 (lit "Ali") (fresh_ingester (lit "n1"))).
Defined.

(** X20: a chunk that gives nothing to merge (the call to the model fails,
    the reply does not parse, or it parses to a falsy value) is skipped and
    does not stop the run: [process_novel] gives what the loop gives on the
    chunks before it followed by the chunks after it, and the later chunks
    keep their own indices. *)
Theorem process_novel_skips_failed_chunks
        (generate_content : str -> option str)
        (json_loads : str -> option json_value)
        (fuel : nat) (text : str) (self : ingester json_value)
        (before after : list str) (chunk : str) :
  chunk_text fuel text 15000 500 = Returns (before ++ chunk :: after) ->
  nothing_extracted generate_content json_loads chunk ->
  process_novel generate_content json_loads fuel true text self
  = self1 ← process_chunks generate_content json_loads true before 0 self;
    process_chunks generate_content json_loads true after
                   (Z.of_nat (length before) + 1) self1.
Proof.
  intros Hchunks Hnone. unfold process_novel.
  rewrite Hchunks. cbn [mbind outcome_bind].
  rewrite process_chunks_app.
  destruct (process_chunks generate_content json_loads true before 0 self)
    as [self1| |]; cbn [mbind outcome_bind]; [|done|done].
  by rewrite process_chunks_skip.
Qed.

Lemma two_chunk_text_chunks :
  chunk_text 2 two_chunk_text 15000 500
  = Returns ([] ++ slice two_chunk_text 0 15000
                :: [slice two_chunk_text 14500 16000]).
Proof. by vm_compute. Qed.

Lemma process_novel_skips_failed_chunks_witness :
  match process_novel fails_on_full_chunks one_character 2 true two_chunk_text
                      (fresh_ingester (lit "n1")) with
  | Returns self' =>
      dialogues json_value self'
      = [tag_dialogue json_value JStr JInt (lit "n1") 1 ∅]
  | Raises | OutOfFuel => False
  end.
Proof.
  rewrite (process_novel_skips_failed_chunks fails_on_full_chunks one_character
             2 two_chunk_text (fresh_ingester (lit "n1"))
             [] [slice two_chunk_text 14500 16000]
             (slice two_chunk_text 0 15000)).
  - by vm_compute.
  - exact two_chunk_text_chunks.
  - intros r v Hr. vm_compute in Hr. discriminate Hr.
Defined.
